(** * Provider registry and model bridge: a shallow embedding

    The development follows the JavaScript sources of the LMI integration

    - [provider-manager.js]  (class [ProviderManager]),
    - [lmi-cli.js]           (class [LMICLI], method [addToConfig]),
    - [model-bridge.js]      (class [ModelBridgeService]).

    JavaScript values are embedded as a tree type, property access follows
    the prototype chain of ordinary objects, exceptions are explicit
    ([option] for the registry, whose callers never inspect the thrown
    value; a small [async] monad for the bridge), and the event loop of the
    bridge is a transition function on an explicit server state. *)

From Stdlib Require Import List String Ascii Bool Arith ZArith Lia Permutation.
From Stdlib Require Import Numbers.DecimalString.
Import ListNotations.

Local Open Scope string_scope.
Local Open Scope list_scope.

(* ================================================================== *)
(** * Part I: definitions                                              *)
(* ================================================================== *)

(** ** JavaScript values and the built-in operations the sources use *)

Module JS.

(** Strings are sequences of 8-bit code units (the Latin-1 range of
    JavaScript's UTF-16 strings); numbers are restricted to the Number
    values of integers. *)
#[local] Set Warnings "-register-all".
Inductive value : Type :=
| VUndefined
| VNull
| VBool (b : bool)
| VNum (n : Z)
| VStr (s : string)
| VArr (xs : list value)
| VObj (props : list (string * value))   (* own enumerable properties, in enumeration order *)
| VNative (name : string).               (* a built-in function object, e.g. [Object] *)

(** Structural induction through the nested lists. *)
Section value_induction.

Variable P : value -> Prop.
Hypothesis P_undefined : P VUndefined.
Hypothesis P_null : P VNull.
Hypothesis P_bool : forall b, P (VBool b).
Hypothesis P_num : forall n, P (VNum n).
Hypothesis P_str : forall s, P (VStr s).
Hypothesis P_arr : forall xs, Forall P xs -> P (VArr xs).
Hypothesis P_obj : forall props, Forall (fun kv => P (snd kv)) props -> P (VObj props).
Hypothesis P_native : forall n, P (VNative n).

Fixpoint value_induction (v : value) : P v :=
  match v with
  | VUndefined => P_undefined
  | VNull => P_null
  | VBool b => P_bool b
  | VNum n => P_num n
  | VStr s => P_str s
  | VArr xs =>
      P_arr xs
        ((fix all (l : list value) : Forall P l :=
            match l with
            | [] => Forall_nil P
            | x :: rest => Forall_cons x (value_induction x) (all rest)
            end) xs)
  | VObj props =>
      P_obj props
        ((fix all (l : list (string * value)) : Forall (fun kv => P (snd kv)) l :=
            match l with
            | [] => Forall_nil _
            | kv :: rest => Forall_cons kv (value_induction (snd kv)) (all rest)
            end) props)
  | VNative n => P_native n
  end.

End value_induction.

Definition LF : string := String (ascii_of_nat 10) EmptyString.
Definition DQ : string := String (ascii_of_nat 34) EmptyString.

(** [Array.prototype.join] on strings. *)
Fixpoint join (sep : string) (l : list string) : string :=
  match l with
  | [] => EmptyString
  | [x] => x
  | x :: rest => x ++ sep ++ join sep rest
  end%string.

(** Lookup of an own property. *)
Fixpoint assoc (k : string) (props : list (string * value)) : option value :=
  match props with
  | [] => None
  | (k', v) :: rest => if String.eqb k k' then Some v else assoc k rest
  end.

Definition has_key (k : string) (props : list (string * value)) : bool :=
  match assoc k props with Some _ => true | None => false end.

(** [obj[k] = v] on an ordinary object: an existing key keeps its place. *)
Fixpoint obj_set (props : list (string * value)) (k : string) (v : value)
  : list (string * value) :=
  match props with
  | [] => [(k, v)]
  | (k', v') :: rest =>
      if String.eqb k k' then (k', v) :: rest else (k', v') :: obj_set rest k v
  end.

(** The properties every ordinary object inherits from [Object.prototype].
    The accessor [__proto__] yields the prototype itself, an object without
    enumerable properties. *)
Definition Object_prototype (k : string) : option value :=
  if String.eqb k "constructor" then Some (VNative "Object")
  else if String.eqb k "__proto__" then Some (VObj [])
  else if existsb (String.eqb k)
            ["toString"; "toLocaleString"; "valueOf"; "hasOwnProperty";
             "isPrototypeOf"; "propertyIsEnumerable"; "__defineGetter__";
             "__defineSetter__"; "__lookupGetter__"; "__lookupSetter__"]
       then Some (VNative k)
  else None.

Definition inherited (k : string) : bool :=
  match Object_prototype k with Some _ => true | None => false end.

(** *** Numbers

    [VNum n] is the Number value of the integer [n]: the binary64 number
    nearest to it.  [nearest x], for [x >= 0], is that number: 53
    significant bits, round to nearest, ties to even.  From [2 ^ 1024] on
    the result stands for an infinity. *)
Definition nearest (x : Z) : Z :=
  let e := Z.log2 x in
  if (e <? 53)%Z then x
  else
    let d := (e - 52)%Z in
    let q := Z.shiftr x d in
    let r := Z.land x (Z.ones d) in
    let half := Z.shiftl 1 (d - 1) in
    let q' := if (half <? r)%Z || ((r =? half)%Z && Z.odd q) then (q + 1)%Z else q in
    Z.shiftl q' d.

Definition finite (n : Z) : bool := (nearest (Z.abs n) <? 2 ^ 1024)%Z.

(** The decimal digits of an integer. *)
Definition digits (x : Z) : string := NilZero.string_of_int (Z.to_int x).

(** Number::toString picks the integers [n], [k], [s] with [k] as small as
    possible such that [s * 10 ^ (n - k)] has the Number value [x] and [s]
    has [k] digits; among several [s] the one nearest to [x], and the even
    one on a tie.  [shortest] tries [k = 1, 2, ...], that is the multiples
    of [p = 10 ^ (n - k)] next to [x], and returns [s * 10 ^ (n - k)]. *)
Fixpoint shortest (fuel : nat) (x p : Z) : Z :=
  match fuel with
  | O => x
  | S fuel' =>
      let lo := (x / p * p)%Z in
      let hi := (lo + p)%Z in
      match (nearest lo =? x)%Z, (nearest hi =? x)%Z with
      | true, true =>
          if (x - lo <? hi - x)%Z then lo
          else if (hi - x <? x - lo)%Z then hi
          else if Z.even (lo / p) then lo else hi
      | true, false => lo
      | false, true => hi
      | false, false => shortest fuel' x (p / 10)%Z
      end
  end.

(** The digits of [s]: a decimal expansion without its trailing zeros. *)
Fixpoint significand (s : string) : string :=
  match s with
  | EmptyString => EmptyString
  | String c rest =>
      match significand rest with
      | EmptyString => if Ascii.eqb c "0" then EmptyString else String c EmptyString
      | kept => String c kept
      end
  end.

(** Number::toString on a positive integral Number value: all the digits
    of [s * 10 ^ (n - k)] when [n <= 21], otherwise the exponent form
    [d.ddde+N] (just [de+N] when [k = 1]). *)
Definition Number_toString (x : Z) : string :=
  let n := String.length (digits x) in
  let v := shortest n x (10 ^ (Z.of_nat n - 1)) in
  if (v <? 10 ^ 21)%Z then digits v
  else
    let e := digits (Z.of_nat (String.length (digits v)) - 1) in
    match significand (digits v) with
    | String c EmptyString => String c ("e+" ++ e)
    | String c rest => String c ("." ++ rest ++ "e+" ++ e)
    | EmptyString => EmptyString
    end%string.

(** Number::toString on the Number value of an integer. *)
Definition Z_to_string (n : Z) : string :=
  if finite n then
    ((if (n <? 0)%Z then "-" else EmptyString)
       ++ Number_toString (nearest (Z.abs n)))%string
  else if (n <? 0)%Z then "-Infinity" else "Infinity".

(** The index properties of an array and of a string. *)
Fixpoint indexed (i : nat) (xs : list value) : list (string * value) :=
  match xs with
  | [] => []
  | x :: rest => (Z_to_string (Z.of_nat i), x) :: indexed (S i) rest
  end.

Fixpoint chars (s : string) : list value :=
  match s with
  | EmptyString => []
  | String c rest => VStr (String c EmptyString) :: chars rest
  end.

(** [v[k]]: [None] is the [TypeError] of reading a property of [null] or
    [undefined].  On ordinary objects own properties come first, then the
    prototype chain.  A built-in function exposes its [name]; arrays and
    strings expose their indices and [length].  What arrays and primitives
    inherit from their prototypes is not modelled: the sources read data
    properties ([type], [name], [providers], ...) that those prototypes do
    not define, and the one computed key, in [getProvider], is studied on
    an ordinary [providers] object. *)
Definition get (v : value) (k : string) : option value :=
  match v with
  | VUndefined | VNull => None
  | VObj props =>
      match assoc k props with
      | Some x => Some x
      | None =>
          match Object_prototype k with
          | Some x => Some x
          | None => Some VUndefined
          end
      end
  | VNative n => Some (if String.eqb k "name" then VStr n else VUndefined)
  | VArr xs =>
      Some (if String.eqb k "length" then VNum (Z.of_nat (List.length xs))
            else match assoc k (indexed 0 xs) with Some x => x | None => VUndefined end)
  | VStr s =>
      Some (if String.eqb k "length" then VNum (Z.of_nat (String.length s))
            else match assoc k (indexed 0 (chars s)) with Some x => x | None => VUndefined end)
  | VBool _ | VNum _ => Some VUndefined
  end.

(** ToBoolean. *)
Definition truthy (v : value) : bool :=
  match v with
  | VUndefined | VNull => false
  | VBool b => b
  | VNum n => negb (Z.eqb n 0)
  | VStr s => negb (String.eqb s EmptyString)
  | VArr _ | VObj _ | VNative _ => true
  end.

(** [a || b]. *)
Definition or_else (a b : value) : value := if truthy a then a else b.

Fixpoint sequence (l : list (option string)) : option (list string) :=
  match l with
  | [] => Some []
  | None :: _ => None
  | Some x :: rest =>
      match sequence rest with Some r => Some (x :: r) | None => None end
  end.

(** ToString, as used by template literals.  [None] is the [TypeError]
    raised for an object whose own [toString] property (necessarily not
    callable, coming from JSON) shadows the inherited method. *)
Fixpoint ToString (v : value) : option string :=
  match v with
  | VUndefined => Some "undefined"
  | VNull => Some "null"
  | VBool b => Some (if b then "true" else "false")
  | VNum n => Some (Z_to_string n)
  | VStr s => Some s
  | VArr xs =>
      match sequence (map (fun x =>
                             match x with
                             | VUndefined | VNull => Some EmptyString
                             | _ => ToString x
                             end) xs) with
      | Some parts => Some (join "," parts)
      | None => None
      end
  | VObj props => if has_key "toString" props then None else Some "[object Object]"
  | VNative n => Some ("function " ++ n ++ "() { [native code] }")%string
  end.

(** [Object.entries]: [None] is the [TypeError] for [null] and [undefined]. *)
Definition Object_entries (v : value) : option (list (string * value)) :=
  match v with
  | VUndefined | VNull => None
  | VObj props => Some props
  | VArr xs => Some (indexed 0 xs)
  | VStr s => Some (indexed 0 (chars s))
  | _ => Some []
  end.

(** [String.prototype.startsWith]. *)
Definition startsWith (s p : string) : bool := String.prefix p s.

Fixpoint drop (n : nat) (s : string) : string :=
  match n, s with
  | O, _ => s
  | S n', String _ rest => drop n' rest
  | S _, EmptyString => EmptyString
  end.

(** [s.replace(pat, rep)] for a string pattern: the first occurrence only. *)
Fixpoint replace (s pat rep : string) : string :=
  if String.prefix pat s then (rep ++ drop (String.length pat) s)%string
  else match s with
       | EmptyString => EmptyString
       | String c rest => String c (replace rest pat rep)
       end.

(** [String.prototype.includes]. *)
Fixpoint includes (s pat : string) : bool :=
  if String.prefix pat s then true
  else match s with
       | EmptyString => false
       | String _ rest => includes rest pat
       end.

(** *** JSON.stringify *)

Definition hex_digit (n : nat) : ascii :=
  ascii_of_nat (if Nat.ltb n 10 then 48 + n else 87 + n).

(** QuoteJSONString on one code unit. *)
Definition escape_char (c : ascii) : string :=
  let n := nat_of_ascii c in
  if Nat.eqb n 8 then "\b"
  else if Nat.eqb n 9 then "\t"
  else if Nat.eqb n 10 then "\n"
  else if Nat.eqb n 12 then "\f"
  else if Nat.eqb n 13 then "\r"
  else if Nat.eqb n 34 then ("\" ++ DQ)%string
  else if Nat.eqb n 92 then "\\"
  else if Nat.ltb n 32 then
    ("\u00" ++ String (hex_digit (n / 16)) (String (hex_digit (n mod 16)) EmptyString))%string
  else String c EmptyString.

Fixpoint escape (s : string) : string :=
  match s with
  | EmptyString => EmptyString
  | String c rest => (escape_char c ++ escape rest)%string
  end.

Definition quote (s : string) : string := (DQ ++ escape s ++ DQ)%string.

(** [JSON.stringify(v)] without indentation; [None] is the result
    [undefined].  Inside an object a property whose value serialises to
    [undefined] is left out, inside an array it becomes [null]; a number
    that is not finite becomes [null]. *)
Fixpoint JSON_stringify (v : value) : option string :=
  match v with
  | VUndefined | VNative _ => None
  | VNull => Some "null"
  | VBool b => Some (if b then "true" else "false")
  | VNum n => Some (if finite n then Z_to_string n else "null")
  | VStr s => Some (quote s)
  | VArr xs =>
      Some ("[" ++ join "," (map (fun x =>
                                    match JSON_stringify x with
                                    | Some s => s
                                    | None => "null"
                                    end) xs) ++ "]")%string
  | VObj props =>
      Some ("{" ++ join "," (flat_map (fun kv =>
                                         match JSON_stringify (snd kv) with
                                         | Some s => [(quote (fst kv) ++ ":" ++ s)%string]
                                         | None => []
                                         end) props) ++ "}")%string
  end.

(** [console.log(s)] writes [s] and one line terminator to stdout. *)
Definition console_log (s : string) : string := (s ++ LF)%string.

(** *** What the platform decides

    [JSON.parse] and the texts of the errors the engine creates are not
    code of this repository; the development is parametric in them. *)

(** The two properties of an [Error] object the sources read. *)
Record error_info : Type := { message : string; stack : string }.

Inductive typeerror_site : Type :=
| Destructure (v : value)                (* [const { ... } = v] with [v] null *)
| ReadProperty (v : value) (k : string)  (* [v.k] with [v] null or undefined *)
| ToPrimitive (v : value).               (* a template literal over [v] *)

Record Runtime : Type := {
  JSON_parse : string -> value + error_info;    (* [inr]: the SyntaxError thrown *)
  TypeError : typeerror_site -> error_info;
  Error_stack : string -> string                (* the [stack] of [new Error(msg)] *)
}.

(** Fallible steps of the registry: [None] is a thrown exception. *)
Definition bind {A B : Type} (a : option A) (f : A -> option B) : option B :=
  match a with Some x => f x | None => None end.

End JS.

Import JS.

Notation "x <- a ;; b" := (bind a (fun x => b))
  (at level 61, a at next level, right associativity).

(** ** provider-manager.js *)

Module ProviderManager.

(** The fallback of [loadLMIProviders]: [{ providers: {} }]. *)
Definition empty_config : value := VObj [("providers", VObj [])].

(** [loadLMIProviders()].  [file] is the content of [lmi-providers.json],
    [None] when [readFileSync] throws (missing or unreadable file).  The
    diagnostic goes to stderr and is not part of the state. *)
Definition loadLMIProviders (rt : Runtime) (file : option string) : value :=
  match file with
  | None => empty_config
  | Some configData =>
      match JSON_parse rt configData with
      | inl parsed => parsed
      | inr _ => empty_config
      end
  end.

(** The table of [getEnvKeyInstructions], an object literal. *)
Definition instructions : value :=
  VObj
    [("openai", VStr "Get your API key from https://platform.openai.com/api-keys");
     ("anthropic", VStr "Get your API key from https://console.anthropic.com/");
     ("google", VStr "Get your API key from https://makersuite.google.com/app/apikey");
     ("mistral", VStr "Get your API key from https://console.mistral.ai/");
     ("cohere", VStr "Get your API key from https://dashboard.cohere.ai/");
     ("huggingface", VStr "Get your API key from https://huggingface.co/settings/tokens");
     ("nvidia", VStr "Get your API key from https://build.nvidia.com/");
     ("xai", VStr "Get your API key from https://console.x.ai/");
     ("baidu", VStr "Get your API key from https://console.bce.baidu.com/qianfan/");
     ("alibaba", VStr "Get your API key from https://dashscope.console.aliyun.com/");
     ("tencent", VStr "Get your API key from https://console.cloud.tencent.com/hunyuan/");
     ("bytedance", VStr "Get your API key from https://console.volcengine.com/ark");
     ("iflytek", VStr "Get your API key from https://www.xfyun.cn/");
     ("zhipu", VStr "Get your API key from https://open.bigmodel.cn/");
     ("moonshot", VStr "Get your API key from https://platform.moonshot.cn/");
     ("deepseek", VStr "Get your API key from https://platform.deepseek.com/");
     ("qwen", VStr "Get your API key from https://dashscope.console.aliyun.com/");
     ("yi", VStr "Get your API key from https://platform.lingyiwanwu.com/");
     ("glm", VStr "Get your API key from https://open.bigmodel.cn/");
     ("claude", VStr "Get your API key from https://console.anthropic.com/");
     ("gemini", VStr "Get your API key from https://makersuite.google.com/app/apikey");
     ("gpt4", VStr "Get your API key from https://platform.openai.com/api-keys");
     ("gpt3", VStr "Get your API key from https://platform.openai.com/api-keys");
     ("llama", VStr "Get your API key from https://llama-api.com/");
     ("palm", VStr "Get your API key from https://makersuite.google.com/app/apikey");
     ("replicate", VStr "Get your API key from https://replicate.com/account/api-tokens");
     ("together", VStr "Get your API key from https://api.together.xyz/settings/api-keys");
     ("perplexity", VStr "Get your API key from https://www.perplexity.ai/settings/api");
     ("groq", VStr "Get your API key from https://console.groq.com/keys");
     ("fireworks", VStr "Get your API key from https://fireworks.ai/");
     ("openrouter", VStr "Get your API key from https://openrouter.ai/keys")].

(** [getEnvKeyInstructions(providerId, provider)]:
    [instructions[providerId] || `Get your API key from the ${provider.name} website`].
    The right operand is evaluated only when the left one is falsy. *)
Definition getEnvKeyInstructions (providerId : string) (provider : value)
  : option value :=
  cataloged <- get instructions providerId ;;
  if truthy cataloged then Some cataloged
  else
    name <- get provider "name" ;;
    shown <- ToString name ;;
    Some (VStr ("Get your API key from the " ++ shown ++ " website")%string).

(** [convertToRustFormat(providerId, lmiProvider)]. *)
Definition convertToRustFormat (providerId : string) (lmiProvider : value)
  : option value :=
  name <- get lmiProvider "name" ;;
  base_url <- get lmiProvider "base_url" ;;
  env_key <- get lmiProvider "env_key" ;;
  env_key_instructions <- getEnvKeyInstructions providerId lmiProvider ;;
  wire_api <- get lmiProvider "wire_api" ;;
  requires_openai_auth <- get lmiProvider "requires_openai_auth" ;;
  Some (VObj [("name", name);
              ("base_url", base_url);
              ("env_key", env_key);
              ("env_key_instructions", env_key_instructions);
              ("wire_api", wire_api);
              ("query_params", VNull);
              ("http_headers", VNull);
              ("env_http_headers", VNull);
              ("request_max_retries", VNull);
              ("stream_max_retries", VNull);
              ("stream_idle_timeout_ms", VNull);
              ("requires_openai_auth", or_else requires_openai_auth (VBool false))]).

(** The [for ... of Object.entries(...)] loop of [getAllProviders]; a throw
    in the body leaves the loop. *)
Fixpoint getAllProviders_loop (entries providers : list (string * value))
  : option (list (string * value)) :=
  match entries with
  | [] => Some providers
  | (providerId, providerConfig) :: rest =>
      converted <- convertToRustFormat providerId providerConfig ;;
      getAllProviders_loop rest
        (obj_set providers ("lmi_" ++ providerId)%string converted)
  end.

(** [getAllProviders()], on the registry state [this.lmiProviders]. *)
Definition getAllProviders (lmiProviders : value) : option (list (string * value)) :=
  catalog <- get lmiProviders "providers" ;;
  entries <- Object_entries catalog ;;
  getAllProviders_loop entries [].

(** [getProvider(providerId)]. *)
Definition getProvider (lmiProviders : value) (providerId : string) : option value :=
  let cleanId := replace providerId "lmi_" EmptyString in
  catalog <- get lmiProviders "providers" ;;
  providerConfig <- get catalog cleanId ;;
  if negb (truthy providerConfig) then Some VNull
  else convertToRustFormat cleanId providerConfig.

(** [listProviderIds()]. *)
Definition listProviderIds (lmiProviders : value) : option (list string) :=
  catalog <- get lmiProviders "providers" ;;
  entries <- Object_entries catalog ;;
  Some (map (fun kv => ("lmi_" ++ fst kv)%string) entries).

(** [isLMIProvider(providerId)]. *)
Definition isLMIProvider (providerId : string) : bool :=
  startsWith providerId "lmi_".

(** [getCleanProviderId(providerId)]. *)
Definition getCleanProviderId (providerId : string) : string :=
  if isLMIProvider providerId then replace providerId "lmi_" EmptyString else providerId.

(** [toml += `key = "${v}"\n`]. *)
Definition quoted_line (toml key : string) (v : value) : option string :=
  shown <- ToString v ;;
  Some (toml ++ key ++ " = " ++ DQ ++ shown ++ DQ ++ LF)%string.

(** [if (v) { toml += `key = "${v}"\n` }]. *)
Definition optional_line (toml key : string) (v : value) : option string :=
  if truthy v then quoted_line toml key v else Some toml.

(** One round of the loop of [generateTOMLConfig]. *)
Definition generateTOMLConfig_block (toml providerId : string) (provider : value)
  : option string :=
  let toml := (toml ++ "[model_providers." ++ providerId ++ "]" ++ LF)%string in
  name <- get provider "name" ;;
  toml <- quoted_line toml "name" name ;;
  base_url <- get provider "base_url" ;;
  toml <- optional_line toml "base_url" base_url ;;
  env_key <- get provider "env_key" ;;
  toml <- optional_line toml "env_key" env_key ;;
  env_key_instructions <- get provider "env_key_instructions" ;;
  toml <- optional_line toml "env_key_instructions" env_key_instructions ;;
  wire_api <- get provider "wire_api" ;;
  toml <- quoted_line toml "wire_api" wire_api ;;
  requires_openai_auth <- get provider "requires_openai_auth" ;;
  shown <- ToString requires_openai_auth ;;
  Some (toml ++ "requires_openai_auth = " ++ shown ++ LF ++ LF)%string.

Fixpoint generateTOMLConfig_loop (entries : list (string * value)) (toml : string)
  : option string :=
  match entries with
  | [] => Some toml
  | (providerId, provider) :: rest =>
      toml <- generateTOMLConfig_block toml providerId provider ;;
      generateTOMLConfig_loop rest toml
  end.

(** [generateTOMLConfig()]. *)
Definition generateTOMLConfig (lmiProviders : value) : option string :=
  providers <- getAllProviders lmiProviders ;;
  generateTOMLConfig_loop providers ("[model_providers]" ++ LF ++ LF)%string.

End ProviderManager.

(** ** lmi-cli.js: [addToConfig] *)

Module LMICLI.

(** The host configuration file [~/.icodex/config.toml]. *)
Inductive file : Type :=
| Missing                                         (* [existsSync] is false *)
| Unreadable                                      (* [readFileSync] throws *)
| File (content : string) (writable : bool).

Inductive outcome : Type :=
| Exit (code : Z)        (* [process.exit(code)] after a diagnostic *)
| AlreadyConfigured      (* the early [return] *)
| Added.

Definition marker : string := "[model_providers.lmi_".

Definition banner : string :=
  (LF ++ LF ++ "# Large Models Interface Providers" ++ LF)%string.

(** [addToConfig()]: the outcome and the configuration file afterwards.  The
    rendering runs before the marker test, as in the source. *)
Definition addToConfig (lmiProviders : value) (config : file) : outcome * file :=
  match config with
  | Missing => (Exit 1, config)
  | Unreadable => (Exit 1, config)
  | File existingConfig writable =>
      match ProviderManager.generateTOMLConfig lmiProviders with
      | None => (Exit 1, config)
      | Some lmiConfig =>
          if includes existingConfig marker then (AlreadyConfigured, config)
          else
            let updatedConfig := (existingConfig ++ banner ++ lmiConfig)%string in
            if writable then (Added, File updatedConfig writable)
            else (Exit 1, config)
      end
  end.

End LMICLI.

(** ** lmi-cli.js: the commands *)

Module LMICLICommands.

(** A file of the file system: its text, if it exists, whether reading it
    succeeds, and whether [writeFileSync] on it succeeds (overwriting the
    file or creating it). *)
Record node : Type := {
  content : option string;
  readable : bool;
  writable : bool
}.

(** Files have an identity of their own (device and inode, say): several
    paths may name one file, through the working directory, [..] or
    links. *)
Definition file_id : Type := N.

(** The configuration file as [addToConfig] meets it. *)
Definition view (n : node) : LMICLI.file :=
  match content n with
  | None => LMICLI.Missing
  | Some text =>
      if readable n then LMICLI.File text (writable n) else LMICLI.Unreadable
  end.

(** The process: the two environment variables [findConfigPath] reads, the
    platform's [join(homeDir, '.icodex', 'config.toml')], the file system
    (the file that each path names or would create, and the files), and
    the texts passed to [console.log] so far.  Diagnostics on stderr are
    not part of the state. *)
Record world : Type := {
  HOME : option string;
  USERPROFILE : option string;
  config_toml : string -> string;
  resolve : string -> file_id;
  files : file_id -> node;
  log : list string
}.

(** The file behind a path. *)
Definition file_at (w : world) (path : string) : node := files w (resolve w path).

(** How a command stops early: an exception nobody in the command
    catches, or [process.exit(code)]. *)
Inductive ending : Type :=
| Threw
| Exited (code : Z).

Definition cmd (A : Type) : Type := world -> world * (A + ending).

Definition ret {A : Type} (a : A) : cmd A := fun w => (w, inl a).

Definition then_ {A B : Type} (m : cmd A) (f : A -> cmd B) : cmd B :=
  fun w =>
    match m w with
    | (w', inl a) => f a w'
    | (w', inr e) => (w', inr e)
    end.

(** An evaluation that may throw. *)
Definition throws {A : Type} (o : option A) : cmd A :=
  fun w => (w, match o with Some a => inl a | None => inr Threw end).

Definition exit {A : Type} (code : Z) : cmd A :=
  fun w => (w, inr (Exited code)).

(** [console.log(text)]. *)
Definition say (text : string) : cmd unit :=
  fun w =>
    ({| HOME := HOME w; USERPROFILE := USERPROFILE w;
        config_toml := config_toml w; resolve := resolve w; files := files w;
        log := log w ++ [text] |}, inl tt).

(** The file that [path] names gets the text; whatever path names the same
    file sees it, and no other file changes. *)
Definition put (path : string) (text : string) (w : world) : world :=
  {| HOME := HOME w; USERPROFILE := USERPROFILE w;
     config_toml := config_toml w;
     resolve := resolve w;
     files := fun f =>
       if N.eqb f (resolve w path)
       then {| content := Some text; readable := readable (files w f);
               writable := writable (files w f) |}
       else files w f;
     log := log w |}.

(** The file system after the write of [LMICLI.addToConfig]. *)
Definition store (path : string) (after : LMICLI.file) (w : world) : world :=
  match after with
  | LMICLI.File text _ => put path text w
  | _ => w
  end.

(** [writeFileSync(path, text)]. *)
Definition writeFileSync (path text : string) : cmd unit :=
  fun w =>
    if writable (file_at w path) then (put path text w, inl tt)
    else (w, inr Threw).

Notation "x <~ a ;; b" := (then_ a (fun x => b))
  (at level 61, a at next level, right associativity).
Notation "a ;;; b" := (then_ a (fun _ => b))
  (at level 61, right associativity).

(** The template literal [`${label}${v}`] passed to [console.log]. *)
Definition shown (label : string) (v : option value) : cmd unit :=
  v <~ throws v ;;
  text <~ throws (ToString v) ;;
  say (label ++ text).

(** The body of the loop of [listProviders]. *)
Definition describe (providerId : string) (provider : value) : cmd unit :=
  say (providerId ++ ":") ;;;
  shown "  Name: " (get provider "name") ;;;
  shown "  Base URL: "
        (base_url <- get provider "base_url" ;; Some (or_else base_url (VStr "N/A"))) ;;;
  shown "  API Key Env: "
        (env_key <- get provider "env_key" ;; Some (or_else env_key (VStr "N/A"))) ;;;
  shown "  Wire API: " (get provider "wire_api") ;;;
  shown "  Requires iEchor Auth: " (get provider "requires_openai_auth") ;;;
  say EmptyString.

Fixpoint listProviders_loop (providers : list (string * value)) : cmd unit :=
  match providers with
  | [] => ret tt
  | (providerId, provider) :: rest =>
      describe providerId provider ;;; listProviders_loop rest
  end.

(** [listProviders()]. *)
Definition listProviders (lmiProviders : value) : cmd unit :=
  say ("Available Large Models Interface Providers:" ++ LF) ;;;
  providers <~ throws (ProviderManager.getAllProviders lmiProviders) ;;
  listProviders_loop providers.

(** [generateConfig(outputPath)]; [None] is an absent argument. *)
Definition generateConfig (lmiProviders : value) (outputPath : option string)
  : cmd unit :=
  config <~ throws (ProviderManager.generateTOMLConfig lmiProviders) ;;
  match outputPath with
  | Some path =>
      if String.eqb path EmptyString then say config
      else writeFileSync path config ;;;
           say ("Configuration written to: " ++ path)
  | None => say config
  end.

(** [process.env.HOME || process.env.USERPROFILE]. *)
Definition homeDir (w : world) : option string :=
  match HOME w with
  | Some home => if String.eqb home EmptyString then USERPROFILE w else Some home
  | None => USERPROFILE w
  end.

(** [addToConfig()] in the process: [findConfigPath] (whose [join] throws
    on an undefined home directory), then the merge of [LMICLI.addToConfig]
    on the file it finds, then the messages. *)
Definition addToConfig (lmiProviders : value) : cmd unit :=
  fun w =>
    match homeDir w with
    | None => (w, inr Threw)
    | Some home =>
        let configPath := config_toml w home in
        match LMICLI.addToConfig lmiProviders (view (file_at w configPath)) with
        | (LMICLI.Exit code, _) => (w, inr (Exited code))
        | (LMICLI.AlreadyConfigured, _) =>
            say "LMI providers are already configured in your config file." w
        | (LMICLI.Added, after) =>
            (say ("Added LMI providers to: " ++ configPath) ;;;
             say "You can now use any of the LMI providers by setting the model_provider in your config or using --model-provider flag." ;;;
             say "Example: icodex --model-provider lmi_openai")
              (store configPath after w)
        end
    end.

(** The text of [showHelp]. *)
Definition help_text : string :=
  join LF
    [EmptyString;
     "Large Models Interface CLI";
     EmptyString;
     "Usage: node lmi-cli.js <command> [options]";
     EmptyString;
     "Commands:";
     "  list                    List all available LMI providers";
     "  generate-config [file]  Generate TOML configuration for LMI providers";
     "  add-to-config          Add LMI providers to existing Codex config";
     "  help                   Show this help message";
     EmptyString;
     "Examples:";
     "  node lmi-cli.js list";
     "  node lmi-cli.js generate-config lmi-providers.toml";
     "  node lmi-cli.js add-to-config";
     EmptyString;
     "After adding providers to your config, you can use them like:";
     "  icodex --model-provider lmi_openai";
     "  icodex --model-provider lmi_anthropic";
     "  icodex --model-provider lmi_google";
     EmptyString].

(** [showHelp()]. *)
Definition showHelp : cmd unit := say help_text.

(** [run()], on [process.argv.slice(2)]. *)
Definition run (lmiProviders : value) (args : list string) : cmd unit :=
  match args with
  | command :: rest =>
      if String.eqb command "list" then listProviders lmiProviders
      else if String.eqb command "generate-config"
           then generateConfig lmiProviders (nth_error args 1)
      else if String.eqb command "add-to-config" then addToConfig lmiProviders
      else if String.eqb command "help" || String.eqb command "--help"
              || String.eqb command "-h"
           then showHelp
      else showHelp ;;; exit 1
  | [] => showHelp ;;; exit 1
  end.

(** The program: [cli.run().catch(error => { ...; process.exit(1) })], and
    the exit code of the process. *)
Definition main (lmiProviders : value) (args : list string) (w : world)
  : world * Z :=
  match run lmiProviders args w with
  | (w', inl _) => (w', 0%Z)
  | (w', inr Threw) => (w', 1%Z)
  | (w', inr (Exited code)) => (w', code)
  end.

End LMICLICommands.

(** ** model-bridge.js *)

Module ModelBridgeService.

(** The calls into [large-models-interface].  [ChatCompletion] records the
    four ingredients of its argument
    [{ provider, model, messages, ...options }]. *)
Inductive lmi_call : Type :=
| ChatCompletion (provider model messages options : value)
| ListModels (provider : value)
| ListProviders.

(** How the promise returned by such a call settles; a rejection carries
    whatever value the library threw.  Results and thrown values are values
    of the embedding, finite trees; [JSON.stringify] throws on none of
    them.  A result it would throw on (a cyclic structure, a [BigInt]) is
    not covered: in the source the exception of [sendResponse] reaches the
    [catch] of the listener and is answered by [sendError]. *)
Inductive outcome : Type :=
| Resolved (v : value)
| Rejected (error : value).

(** An [async] function body: it returns, throws an [Error] created by the
    engine or by [new Error], or is suspended at an [await] of a library
    call. *)
Inductive async (A : Type) : Type :=
| Return (a : A)
| Raise (e : error_info)
| Await (c : lmi_call) (k : outcome -> async A).

Arguments Return {A} a.
Arguments Raise {A} e.
Arguments Await {A} c k.

Section Handlers.

Context (rt : Runtime).

(** The [try { ... return { success: true, data } } catch (error)
    { return { success: false, error: error.message } }] shared by the three
    handlers.  Reading [message] off a thrown [null] or [undefined] throws
    in turn. *)
Definition settled (o : outcome) : async value :=
  match o with
  | Resolved data => Return (VObj [("success", VBool true); ("data", data)])
  | Rejected error =>
      match get error "message" with
      | Some msg => Return (VObj [("success", VBool false); ("error", msg)])
      | None => Raise (TypeError rt (ReadProperty error "message"))
      end
  end.

(** [handleChatCompletion(provider, model, messages, options)]. *)
Definition handleChatCompletion (provider model messages options : value)
  : async value :=
  Await (ChatCompletion provider model messages options) settled.

(** [handleListModels(provider)]. *)
Definition handleListModels (provider : value) : async value :=
  Await (ListModels provider) settled.

(** [handleListProviders()]. *)
Definition handleListProviders : async value :=
  Await ListProviders settled.

(** A destructured field of a non-null value. *)
Definition field (request : value) (k : string) : value :=
  match get request k with Some v => v | None => VUndefined end.

(** [handleRequest(request)]. *)
Definition handleRequest (request : value) : async value :=
  match request with
  | VUndefined | VNull => Raise (TypeError rt (Destructure request))
  | _ =>
      let type := field request "type" in
      let provider := field request "provider" in
      let model := field request "model" in
      let messages := field request "messages" in
      let options :=
        match field request "options" with
        | VUndefined => VObj []
        | given => given
        end in
      let unknown :=
        match ToString type with
        | Some shown =>
            let msg := ("Unknown request type: " ++ shown)%string in
            Raise {| message := msg; stack := Error_stack rt msg |}
        | None => Raise (TypeError rt (ToPrimitive type))
        end in
      match type with
      | VStr t =>
          if String.eqb t "chat_completion"
          then handleChatCompletion provider model messages options
          else if String.eqb t "list_models" then handleListModels provider
          else if String.eqb t "list_providers" then handleListProviders
          else unknown
      | _ => unknown
      end
  end.

(** [sendResponse(response)]: the text written to stdout. *)
Definition sendResponse (response : value) : string :=
  console_log match JSON_stringify response with
              | Some text => text
              | None => "undefined"
              end.

(** [sendError(error)]. *)
Definition sendError (error : error_info) : string :=
  let errorResponse :=
    VObj [("success", VBool false);
          ("error", VStr (message error));
          ("stack", VStr (stack error))] in
  sendResponse errorResponse.

(** *** The event loop

    A request whose handler is suspended at a library call. *)
Record task : Type := {
  tid : nat;                          (* position of its line on stdin *)
  call : lmi_call;
  resume : outcome -> async value
}.

(** The server between two turns of the event loop.  Every write to stdout
    is tagged with the position of the request line that caused it. *)
Record server : Type := {
  waiting : list task;
  stdout : list (nat * string);
  received : nat;
  exited : option Z
}.

Definition init : server :=
  {| waiting := []; stdout := []; received := 0; exited := None |}.

Definition write (id : nat) (text : string) (s : server) : server :=
  {| waiting := waiting s; stdout := stdout s ++ [(id, text)];
     received := received s; exited := exited s |}.

Definition suspend (t : task) (s : server) : server :=
  {| waiting := waiting s ++ [t]; stdout := stdout s;
     received := received s; exited := exited s |}.

Definition count_line (s : server) : server :=
  {| waiting := waiting s; stdout := stdout s;
     received := S (received s); exited := exited s |}.

(** What the line handler does once [handleRequest] has settled or is
    suspended: [sendResponse], [sendError] from the [catch], or wait. *)
Definition continue (id : nat) (p : async value) (s : server) : server :=
  match p with
  | Return response => write id (sendResponse response) s
  | Raise error => write id (sendError error) s
  | Await c k => suspend {| tid := id; call := c; resume := k |} s
  end.

(** The synchronous part of the [line] listener.  A [SyntaxError] of
    [JSON.parse] reaches the [catch] at once; otherwise [handleRequest] runs
    up to its first [await], and the listener itself is suspended at
    [await this.handleRequest(request)]: when the handler has already
    settled, the rest of the listener is a job for the end of the turn. *)
Definition on_line (st : server * list (nat * async value)) (line : string)
  : server * list (nat * async value) :=
  let (s, jobs) := st in
  let id := received s in
  match JSON_parse rt line with
  | inr error => (write id (sendError error) (count_line s), jobs)
  | inl request =>
      match handleRequest request with
      | Await c k =>
          (suspend {| tid := id; call := c; resume := k |} (count_line s), jobs)
      | done => (count_line s, jobs ++ [(id, done)])
      end
  end.

(** The jobs queued during a turn run, in order, when the stack empties. *)
Definition drain (st : server * list (nat * async value)) : server :=
  fold_left (fun s job => continue (fst job) (snd job) s) (snd st) (fst st).

Fixpoint remove_nth {A : Type} (i : nat) (l : list A) : list A :=
  match i, l with
  | _, [] => []
  | O, _ :: rest => rest
  | S i', x :: rest => x :: remove_nth i' rest
  end.

(** One turn of the event loop. *)
Inductive turn : Type :=
| Chunk (lines : list string)     (* stdin data: readline emits its lines in a row *)
| Settle (i : nat) (o : outcome)  (* the call of the [i]-th waiting task settles *)
| Signal.                         (* SIGINT or SIGTERM *)

Definition step (s : server) (t : turn) : server :=
  match exited s with
  | Some _ => s
  | None =>
      match t with
      | Chunk lines => drain (fold_left on_line lines (s, []))
      | Settle i o =>
          match nth_error (waiting s) i with
          | None => s
          | Some t =>
              continue (tid t) (resume t o)
                {| waiting := remove_nth i (waiting s); stdout := stdout s;
                   received := received s; exited := exited s |}
          end
      | Signal =>
          (* cleanup(); process.exit(0) *)
          {| waiting := waiting s; stdout := stdout s;
             received := received s; exited := Some 0%Z |}
      end
  end.

Definition run (s : server) (turns : list turn) : server :=
  fold_left step turns s.

(** The lines received over a schedule. *)
Definition lines_of (turns : list turn) : list string :=
  flat_map (fun t => match t with Chunk lines => lines | _ => [] end) turns.

(** The host is serial: it sends one line at a time, and only when no
    earlier request is still being served. *)
Fixpoint serial (s : server) (turns : list turn) : bool :=
  match turns with
  | [] => true
  | t :: rest =>
      match t with
      | Chunk lines =>
          Nat.leb (List.length lines) 1 && Nat.eqb (List.length (waiting s)) 0
      | _ => true
      end && serial (step s t) rest
  end.

End Handlers.

(** A runtime for the examples: [JSON.parse] restricted to the texts that
    [JSON.stringify] gives for the listed values; every other line is
    rejected. *)
Definition sample_parse (known : list value) (line : string) : value + error_info :=
  match find (fun v => match JSON_stringify v with
                       | Some text => String.eqb text line
                       | None => false
                       end) known with
  | Some v => inl v
  | None => inr {| message := "Unexpected token"; stack := "SyntaxError: Unexpected token" ++ LF ++ "    at JSON.parse (<anonymous>)" |}
  end.

Definition sample_runtime (known : list value) : Runtime :=
  {| JSON_parse := sample_parse known;
     TypeError := fun site =>
       {| message := "Cannot read properties";
          stack := "TypeError: Cannot read properties" |};
     Error_stack := fun msg => ("Error: " ++ msg ++ LF ++ "    at handleRequest")%string |}.

End ModelBridgeService.

(** ** Vocabulary of the statements *)

Import ProviderManager.

(** *** Registry and emitter *)

(** The registry state after a successful load of a catalog file whose
    [providers] object has the given entries. *)
Definition catalog (entries : list (string * value)) : value :=
  VObj [("providers", VObj entries)].

(** A catalog entry is raw provider metadata: an object with a display
    name. *)
Definition is_metadata (entry : value) : bool :=
  match entry with
  | VObj props =>
      match assoc "name" props with
      | Some (VStr _) => true
      | _ => false
      end
  | _ => false
  end.

(** The keys of an object are unique. *)
Definition well_formed (entries : list (string * value)) : Prop :=
  NoDup (map fst entries) /\ Forall (fun kv => is_metadata (snd kv) = true) entries.

(** [c] is the configuration derived from the catalog entry [kv]. *)
Definition derived (kv c : string * value) : Prop :=
  fst c = ("lmi_" ++ fst kv)%string /\
  convertToRustFormat (fst kv) (snd kv) = Some (snd c).

(** The keys [getAllProviders] produces all carry the namespace prefix. *)
Definition namespaced (kv : string * value) : Prop :=
  exists k, fst kv = ("lmi_" ++ k)%string.

(** [b] is [a] with text appended. *)
Definition extends (a b : string) : Prop := exists rest, b = (a ++ rest)%string.

(** The catalog of the end-to-end example, whose entry declares no
    [wire_api], with a second entry that does. *)
Definition openai_entry : value :=
  VObj [("name", VStr "iEchor");
        ("base_url", VStr "https://api.openai.com/v1");
        ("env_key", VStr "OPENAI_API_KEY")].

Definition example_entries : list (string * value) :=
  [("openai", openai_entry);
   ("ollama", VObj [("name", VStr "Ollama"); ("wire_api", VStr "lmi_bridge")])].

(** *** Bridge *)

(** Text without a line feed or carriage return, and text that is exactly
    one line: such a body followed by one line feed. *)
Definition line_break (c : ascii) : bool :=
  Nat.eqb (nat_of_ascii c) 10 || Nat.eqb (nat_of_ascii c) 13.

Fixpoint no_break (s : string) : bool :=
  match s with
  | EmptyString => true
  | String c rest => negb (line_break c) && no_break rest
  end.

Definition one_line (text : string) : Prop :=
  exists body, text = (body ++ LF)%string /\ no_break body = true.

(** The three request types the bridge serves. *)
Definition served (type : value) : bool :=
  match type with
  | VStr t =>
      String.eqb t "chat_completion" || String.eqb t "list_models"
      || String.eqb t "list_providers"
  | _ => false
  end.

(** The call the dispatch rule prescribes for a request. *)
Definition dispatched (request : value) (c : ModelBridgeService.lmi_call) : Prop :=
  let arg := ModelBridgeService.field request in
  (arg "type" = VStr "chat_completion" ->
   c = ModelBridgeService.ChatCompletion
         (arg "provider") (arg "model") (arg "messages")
         match arg "options" with VUndefined => VObj [] | given => given end) /\
  (arg "type" = VStr "list_models" ->
   c = ModelBridgeService.ListModels (arg "provider")) /\
  (arg "type" = VStr "list_providers" -> c = ModelBridgeService.ListProviders).

(** The two shapes of a response to a served request. *)
Definition success (data : value) : value :=
  VObj [("success", VBool true); ("data", data)].

Definition failure (msg : value) : value :=
  VObj [("success", VBool false); ("error", msg)].

(** Data that [JSON.stringify] serialises without calling into it: no
    object in it has a function as its own [toJSON] property.  On such data
    [JSON_stringify] is what [JSON.stringify] computes. *)
Fixpoint plain (v : value) : bool :=
  match v with
  | VArr xs => forallb plain xs
  | VObj props =>
      match assoc "toJSON" props with
      | Some (VNative _) => false
      | _ => forallb (fun kv => plain (snd kv)) props
      end
  | _ => true
  end.

(** What the listener makes of a line ([listener]), and the trace that a
    finished or suspended listener leaves in the server ([effect]): the
    write of [sendResponse], the write of [sendError], or the suspended
    task. *)
Definition listener (rt : Runtime) (line : string) : ModelBridgeService.async value :=
  match JSON_parse rt line with
  | inr error => ModelBridgeService.Raise error
  | inl request => ModelBridgeService.handleRequest rt request
  end.

Definition effect (id : nat) (p : ModelBridgeService.async value)
           (s : ModelBridgeService.server) : Prop :=
  match p with
  | ModelBridgeService.Return response =>
      In (id, ModelBridgeService.sendResponse response) (ModelBridgeService.stdout s)
  | ModelBridgeService.Raise error =>
      In (id, ModelBridgeService.sendError error) (ModelBridgeService.stdout s)
  | ModelBridgeService.Await c k =>
      In {| ModelBridgeService.tid := id; ModelBridgeService.call := c;
            ModelBridgeService.resume := k |} (ModelBridgeService.waiting s)
  end.

(** The writes caused by the request line at position [n]. *)
Definition writes_of (n : nat) (s : ModelBridgeService.server) : list (nat * string) :=
  filter (fun w => Nat.eqb (fst w) n) (ModelBridgeService.stdout s).

(** The ids behind the writes and the suspended requests of a server. *)
Definition ids (s : ModelBridgeService.server) : list nat :=
  map fst (ModelBridgeService.stdout s)
  ++ map ModelBridgeService.tid (ModelBridgeService.waiting s).

(** Every write so far is one line; every request received so far is
    accounted for once: by a write, by a suspended handler, or by a job of
    the current turn. *)
Definition tidy (s : ModelBridgeService.server) : Prop :=
  Forall (fun w => one_line (snd w)) (ModelBridgeService.stdout s).

Definition accounted (s : ModelBridgeService.server)
           (jobs : list (nat * ModelBridgeService.async value)) : Prop :=
  Permutation (ids s ++ map fst jobs) (seq 0 (ModelBridgeService.received s)).

(** With a serial host the writes are in request order and at most one
    handler is suspended. *)
Definition in_order (s : ModelBridgeService.server) : Prop :=
  ids s = seq 0 (ModelBridgeService.received s) /\
  List.length (ModelBridgeService.waiting s) <= 1.

(** *** Examples

    Requests of the wire protocol and the lines that carry them. *)
Definition chat_request : value :=
  VObj [("type", VStr "chat_completion"); ("provider", VStr "unknown");
        ("model", VStr "x"); ("messages", VArr [])].

Definition list_request : value := VObj [("type", VStr "list_providers")].

Definition odd_request : value := VObj [("type", VStr "shutdown")].

Definition numbered_request : value := VObj [("type", VNum (10 ^ 21))].

Definition line_of (request : value) : string :=
  match JSON_stringify request with Some text => text | None => EmptyString end.

Definition example_runtime : Runtime :=
  ModelBridgeService.sample_runtime [chat_request; list_request; odd_request].

Definition not_found : value := VObj [("message", VStr "provider not found")].

Definition providers_listed : value := VArr [VStr "openai"; VStr "anthropic"].

(** Two schedules over the same two request lines.  In the first the host
    waits for each answer before it sends the next line; in the second the
    second line arrives while the first call is pending, and the second
    call settles first. *)
Definition serial_schedule : list ModelBridgeService.turn :=
  [ModelBridgeService.Chunk [line_of chat_request];
   ModelBridgeService.Settle 0 (ModelBridgeService.Rejected not_found);
   ModelBridgeService.Chunk [line_of list_request];
   ModelBridgeService.Settle 0 (ModelBridgeService.Resolved providers_listed)].

Definition overlapping_schedule : list ModelBridgeService.turn :=
  [ModelBridgeService.Chunk [line_of chat_request];
   ModelBridgeService.Chunk [line_of list_request];
   ModelBridgeService.Settle 1 (ModelBridgeService.Resolved providers_listed);
   ModelBridgeService.Settle 0 (ModelBridgeService.Rejected not_found)].

(** *** Further vocabulary: the registry on typed metadata

    Provider metadata with its optional fields, the catalog entry it
    stands for, and the block of the configuration document that the
    template literals of [generateTOMLConfig] spell out for it. *)
Record metadata : Type := {
  display_name : string;
  base_url_of : option string;
  env_key_of : option string;
  wire_api_of : string;
  openai_auth : option bool
}.

Definition optional (k : string) (o : option string) : list (string * value) :=
  match o with Some text => [(k, VStr text)] | None => [] end.

Definition entry_of (m : metadata) : value :=
  VObj ([("name", VStr (display_name m))]
        ++ optional "base_url" (base_url_of m)
        ++ optional "env_key" (env_key_of m)
        ++ [("wire_api", VStr (wire_api_of m))]
        ++ match openai_auth m with
           | Some b => [("requires_openai_auth", VBool b)]
           | None => []
           end).

Definition typed_entries (entries : list (string * metadata)) : list (string * value) :=
  map (fun km => (fst km, entry_of (snd km))) entries.

Definition hint_of (k name : string) : string :=
  match get instructions k with
  | Some (VStr hint) => hint
  | _ => "Get your API key from the " ++ name ++ " website"
  end%string.

(** The configuration [convertToRustFormat] builds from it. *)
Definition text_or_undefined (o : option string) : value :=
  match o with Some text => VStr text | None => VUndefined end.

Definition auth_of (m : metadata) : bool :=
  match openai_auth m with Some b => b | None => false end.

Definition config_of (k : string) (m : metadata) : value :=
  VObj [("name", VStr (display_name m));
        ("base_url", text_or_undefined (base_url_of m));
        ("env_key", text_or_undefined (env_key_of m));
        ("env_key_instructions", VStr (hint_of k (display_name m)));
        ("wire_api", VStr (wire_api_of m));
        ("query_params", VNull);
        ("http_headers", VNull);
        ("env_http_headers", VNull);
        ("request_max_retries", VNull);
        ("stream_max_retries", VNull);
        ("stream_idle_timeout_ms", VNull);
        ("requires_openai_auth", VBool (auth_of m))].

Definition typed_configs (entries : list (string * metadata)) : list (string * value) :=
  map (fun km => (("lmi_" ++ fst km)%string, config_of (fst km) (snd km))) entries.

Definition quoted (key text : string) : string :=
  (key ++ " = " ++ DQ ++ text ++ DQ ++ LF)%string.

Definition quoted_if_set (key : string) (o : option string) : string :=
  match o with
  | Some text => if String.eqb text EmptyString then EmptyString else quoted key text
  | None => EmptyString
  end.

Definition block_of (k : string) (m : metadata) : string :=
  ("[model_providers.lmi_" ++ k ++ "]" ++ LF
   ++ quoted "name" (display_name m)
   ++ quoted_if_set "base_url" (base_url_of m)
   ++ quoted_if_set "env_key" (env_key_of m)
   ++ quoted "env_key_instructions" (hint_of k (display_name m))
   ++ quoted "wire_api" (wire_api_of m)
   ++ "requires_openai_auth = "
   ++ (if auth_of m then "true" else "false")
   ++ LF ++ LF)%string.

Fixpoint blocks_of (entries : list (string * metadata)) : string :=
  match entries with
  | [] => EmptyString
  | (k, m) :: rest => (block_of k m ++ blocks_of rest)%string
  end.

Definition typed_example : list (string * metadata) :=
  [("openai",
    {| display_name := "iEchor";
       base_url_of := Some "https://api.openai.com/v1";
       env_key_of := Some "OPENAI_API_KEY";
       wire_api_of := "lmi_bridge";
       openai_auth := None |});
   ("ollama",
    {| display_name := "Ollama";
       base_url_of := None;
       env_key_of := Some EmptyString;
       wire_api_of := "lmi_bridge";
       openai_auth := Some false |})].

(** A [providers] value on which [Object.entries] throws. *)
Definition nullish (v : value) : bool :=
  match v with VUndefined | VNull => true | _ => false end.

(** *** Further vocabulary: the bridge *)

(** The three shapes of a response object, and the lines that carry one. *)
Definition error_response (error : error_info) : value :=
  VObj [("success", VBool false);
        ("error", VStr (message error));
        ("stack", VStr (stack error))].

Inductive shaped : value -> Prop :=
| shaped_success (data : value) : shaped (success data)
| shaped_failure (msg : value) : shaped (failure msg)
| shaped_error (error : error_info) : shaped (error_response error).

Definition response_line (text : string) : Prop :=
  exists response, shaped response /\ text = ModelBridgeService.sendResponse response.

(** How every response line starts: [{"success":true] or [{"success":false]. *)
Definition opening (b : bool) : string :=
  ("{" ++ DQ ++ "success" ++ DQ ++ ":" ++ if b then "true" else "false")%string.

(** Every suspended handler is one of the three of [handleRequest], waiting
    at its only [await]. *)
Definition awaits_once (rt : Runtime) (s : ModelBridgeService.server) : Prop :=
  Forall (fun t => ModelBridgeService.resume t = ModelBridgeService.settled rt)
         (ModelBridgeService.waiting s).

(** The state the event loop keeps between turns when it starts from
    [init]: every write carries a response, every suspended handler waits
    at its only [await]. *)
Definition sound (rt : Runtime) (s : ModelBridgeService.server) : Prop :=
  awaits_once rt s /\
  Forall (fun w => response_line (snd w)) (ModelBridgeService.stdout s).

(** What a turn may append to stdout: the settlement of a pending call the
    one response to the request the call was issued for, a chunk only
    responses to lines of its own (those that fail before any call), a
    signal nothing. *)
Definition written_by (s : ModelBridgeService.server) (t : ModelBridgeService.turn)
           (new : list (nat * string)) : Prop :=
  match t with
  | ModelBridgeService.Chunk lines =>
      Forall (fun w => ModelBridgeService.received s <= fst w
                       < ModelBridgeService.received s + List.length lines) new
  | ModelBridgeService.Settle i o =>
      match nth_error (ModelBridgeService.waiting s) i with
      | Some task =>
          exists text,
            response_line text /\ new = [(ModelBridgeService.tid task, text)]
      | None => new = []
      end
  | ModelBridgeService.Signal => new = []
  end.

(** *** Further vocabulary: the command line *)

(** A world for the examples: one home directory, a configuration file
    with some text that two paths name, every other path a file of its own
    that does not exist yet, every file writable. *)
Fixpoint path_code (p : string) : N :=
  match p with
  | EmptyString => 1
  | String c rest => (N_of_ascii c + 256 * path_code rest)%N
  end.

Definition example_world : LMICLICommands.world :=
  {| LMICLICommands.HOME := Some "/home/u";
     LMICLICommands.USERPROFILE := None;
     LMICLICommands.config_toml := fun home => (home ++ "/.icodex/config.toml")%string;
     LMICLICommands.resolve := fun p =>
       if String.eqb p "/home/u/.icodex/config.toml"
          || String.eqb p "/home/u/.icodex/../.icodex/config.toml"
       then 0%N else path_code p;
     LMICLICommands.files := fun f =>
       {| LMICLICommands.content := if N.eqb f 0 then Some "model = x" else None;
          LMICLICommands.readable := true;
          LMICLICommands.writable := true |};
     LMICLICommands.log := [] |}.

(** A command that leaves the environment and the file system alone and
    at most adds to the log. *)
Definition untouched (w w' : LMICLICommands.world) : Prop :=
  LMICLICommands.HOME w' = LMICLICommands.HOME w /\
  LMICLICommands.USERPROFILE w' = LMICLICommands.USERPROFILE w /\
  LMICLICommands.config_toml w' = LMICLICommands.config_toml w /\
  LMICLICommands.resolve w' = LMICLICommands.resolve w /\
  LMICLICommands.files w' = LMICLICommands.files w /\
  exists new, LMICLICommands.log w' = LMICLICommands.log w ++ new.

Definition quiet {A : Type} (m : LMICLICommands.cmd A) : Prop :=
  forall w, untouched w (fst (m w)).

(** Between two worlds the environment is the same, every path names the
    file it named, the log has only grown, no permission has changed, and
    only allowed files are different. *)
Definition changes_only (allowed : LMICLICommands.file_id -> Prop)
           (w w' : LMICLICommands.world) : Prop :=
  LMICLICommands.HOME w' = LMICLICommands.HOME w /\
  LMICLICommands.USERPROFILE w' = LMICLICommands.USERPROFILE w /\
  LMICLICommands.config_toml w' = LMICLICommands.config_toml w /\
  LMICLICommands.resolve w' = LMICLICommands.resolve w /\
  (exists new, LMICLICommands.log w' = LMICLICommands.log w ++ new) /\
  forall f,
    LMICLICommands.readable (LMICLICommands.files w' f)
      = LMICLICommands.readable (LMICLICommands.files w f) /\
    LMICLICommands.writable (LMICLICommands.files w' f)
      = LMICLICommands.writable (LMICLICommands.files w f) /\
    (LMICLICommands.files w' f = LMICLICommands.files w f \/ allowed f).

(** A command that, when it completes, has logged [n] more texts. *)
Definition logs {A : Type} (n : nat) (m : LMICLICommands.cmd A) : Prop :=
  forall w w' a,
    m w = (w', inl a) ->
    List.length (LMICLICommands.log w') = List.length (LMICLICommands.log w) + n.

(** The world after [console.log] of the given texts. *)
Definition said (texts : list string) (w : LMICLICommands.world)
  : LMICLICommands.world :=
  {| LMICLICommands.HOME := LMICLICommands.HOME w;
     LMICLICommands.USERPROFILE := LMICLICommands.USERPROFILE w;
     LMICLICommands.config_toml := LMICLICommands.config_toml w;
     LMICLICommands.resolve := LMICLICommands.resolve w;
     LMICLICommands.files := LMICLICommands.files w;
     LMICLICommands.log := LMICLICommands.log w ++ texts |}.

(** The commands [run] knows. *)
Definition known_command (command : string) : bool :=
  existsb (String.eqb command)
    ["list"; "generate-config"; "add-to-config"; "help"; "--help"; "-h"].

(* ================================================================== *)
(** * Part II: properties                                              *)
(* ================================================================== *)

(** ** Strings *)

Lemma prefix_app (p s : string) : String.prefix p (p ++ s) = true.
Proof.
  induction p as [|c p IH]; simpl.
  - now destruct s.
  - destruct (Ascii.ascii_dec c c); [exact IH | congruence].
Qed.

Lemma prefix_app_l (p a b : string) :
  String.prefix p a = true -> String.prefix p (a ++ b) = true.
Proof.
  revert a; induction p as [|c p IH]; intros a H; simpl in *.
  - now destruct (a ++ b)%string.
  - destruct a as [|c' a]; simpl in *; [discriminate|].
    destruct (Ascii.ascii_dec c c'); [now apply IH | discriminate].
Qed.

Lemma drop_app (p s : string) : drop (String.length p) (p ++ s) = s.
Proof. induction p; simpl; [now destruct s | assumption]. Qed.

Lemma includes_unfold (s pat : string) :
  includes s pat =
  if String.prefix pat s then true
  else match s with
       | EmptyString => false
       | String _ rest => includes rest pat
       end.
Proof. now destruct s. Qed.

Lemma replace_unfold (s pat rep : string) :
  replace s pat rep =
  if String.prefix pat s then (rep ++ drop (String.length pat) s)%string
  else match s with
       | EmptyString => EmptyString
       | String c rest => String c (replace rest pat rep)
       end.
Proof. now destruct s. Qed.

Lemma replace_prefixed (p s rep : string) : replace (p ++ s) p rep = (rep ++ s)%string.
Proof. now rewrite replace_unfold, prefix_app, drop_app. Qed.

Lemma replace_absent (s pat rep : string) :
  includes s pat = false -> replace s pat rep = s.
Proof.
  induction s as [|c s IH]; intros H;
    rewrite includes_unfold in H; rewrite replace_unfold;
    destruct (String.prefix pat _); try discriminate; [reflexivity|].
  now rewrite IH.
Qed.

Lemma includes_app_l (a b pat : string) :
  includes a pat = true -> includes (a ++ b) pat = true.
Proof.
  induction a as [|c a IH]; intros H; rewrite includes_unfold in H;
    rewrite includes_unfold.
  - destruct (String.prefix pat EmptyString) eqn:E; [|discriminate].
    now rewrite (prefix_app_l _ _ b E).
  - destruct (String.prefix pat (String c a)) eqn:E.
    + now rewrite (prefix_app_l _ _ b E).
    + cbn [append]. rewrite (IH H).
      destruct (String.prefix pat (String c (a ++ b))); reflexivity.
Qed.

Lemma includes_app_r (a b pat : string) :
  includes b pat = true -> includes (a ++ b) pat = true.
Proof.
  intros H. induction a as [|c a IH]; [exact H|].
  rewrite includes_unfold. cbn [append]. rewrite IH.
  destruct (String.prefix pat (String c (a ++ b))); reflexivity.
Qed.

Lemma includes_here (p s : string) : includes (p ++ s) p = true.
Proof. now rewrite includes_unfold, prefix_app. Qed.

Lemma append_assoc (a b c : string) : ((a ++ b) ++ c = a ++ (b ++ c))%string.
Proof. induction a; simpl; [reflexivity | now f_equal]. Qed.

Lemma append_inj_l (p a b : string) : (p ++ a = p ++ b)%string -> a = b.
Proof. induction p; simpl; intros H; [assumption | injection H; auto]. Qed.

(** ** Objects *)

Lemma get_object (props : list (string * value)) (k : string) :
  exists v, get (VObj props) k = Some v.
Proof.
  unfold get. destruct (assoc k props); [eauto|].
  destruct (Object_prototype k); eauto.
Qed.

Lemma get_own (props : list (string * value)) (k : string) (v : value) :
  assoc k props = Some v -> get (VObj props) k = Some v.
Proof. intros H. unfold get. now rewrite H. Qed.

Lemma assoc_absent (k : string) (props : list (string * value)) :
  ~ In k (map fst props) -> assoc k props = None.
Proof.
  induction props as [|[k' v] props IH]; simpl; intros H; [reflexivity|].
  destruct (String.eqb_spec k k') as [->|_]; [tauto|]. apply IH. tauto.
Qed.

Lemma assoc_present (k : string) (props : list (string * value)) (v : value) :
  assoc k props = Some v -> In (k, v) props.
Proof.
  induction props as [|[k' v'] props IH]; simpl; [discriminate|].
  destruct (String.eqb_spec k k') as [->|_]; intros H.
  - injection H as ->. now left.
  - right. now apply IH.
Qed.

Lemma obj_set_fresh (props : list (string * value)) (k : string) (v : value) :
  ~ In k (map fst props) -> obj_set props k v = props ++ [(k, v)].
Proof.
  induction props as [|[k' v'] props IH]; simpl; intros H; [reflexivity|].
  destruct (String.eqb_spec k k') as [->|_]; [tauto|].
  rewrite IH; tauto.
Qed.

(** ** The provider registry *)

Lemma get_catalog (entries : list (string * value)) :
  get (catalog entries) "providers" = Some (VObj entries).
Proof. reflexivity. Qed.

Lemma Object_prototype_values (k : string) (v : value) :
  Object_prototype k = Some v -> v = VObj [] \/ exists n, v = VNative n.
Proof.
  unfold Object_prototype.
  destruct (String.eqb k "constructor"); [intros [= <-]; eauto|].
  destruct (String.eqb k "__proto__"); [intros [= <-]; eauto|].
  destruct (existsb _ _); [intros [= <-]; eauto | discriminate].
Qed.

(** Every hint of the table is a non-empty string. *)
Lemma instructions_own (k : string) (hint : value) :
  get instructions k = Some hint ->
  inherited k = false ->
  hint = VUndefined \/ exists s, hint = VStr s /\ s <> EmptyString /\ truthy hint = true.
Proof.
  unfold instructions, get, inherited.
  match goal with |- context [assoc k ?t] => set (table := t) end.
  assert (T : Forall (fun kv => exists s, snd kv = VStr s /\ s <> EmptyString /\
                                          truthy (snd kv) = true) table).
  { unfold table. repeat constructor;
      (eexists; split; [reflexivity | split; [discriminate | reflexivity]]). }
  destruct (assoc k table) as [h|] eqn:E.
  - intros [= <-] _. right. apply assoc_present in E.
    rewrite Forall_forall in T. exact (T _ E).
  - destruct (Object_prototype k); [discriminate|]. intros [= <-] _. now left.
Qed.

Lemma getEnvKeyInstructions_total (k : string) (v : value) :
  (exists name, get v "name" = Some name /\ ToString name <> None) ->
  exists hint, getEnvKeyInstructions k v = Some hint.
Proof.
  intros (name & Hn & Hs). unfold getEnvKeyInstructions.
  destruct (get_object
              ltac:(let t := eval unfold instructions in instructions in
                    match t with VObj ?l => exact l end) k) as [c Hc].
  change (get instructions k = Some c) in Hc. rewrite Hc. cbn [bind].
  destruct (truthy c); [eauto|].
  rewrite Hn. cbn [bind]. destruct (ToString name); [cbn [bind]; eauto | congruence].
Qed.

Lemma convertToRustFormat_total (k : string) (v : value) :
  (exists name, get v "name" = Some name /\ ToString name <> None) ->
  exists config, convertToRustFormat k v = Some config.
Proof.
  intros H. destruct (getEnvKeyInstructions_total k v H) as [hint Hh].
  destruct H as (name & Hn & _). unfold convertToRustFormat.
  rewrite Hn, Hh. cbn [bind].
  destruct v; try discriminate; cbn [get bind]; eauto.
  - destruct (assoc "base_url" props), (assoc "env_key" props),
      (assoc "wire_api" props), (assoc "requires_openai_auth" props);
      cbn; eauto.
Qed.

Lemma metadata_named (v : value) :
  is_metadata v = true ->
  exists name, get v "name" = Some name /\ ToString name <> None.
Proof.
  destruct v; try discriminate. unfold is_metadata.
  destruct (assoc "name" props) as [[]|] eqn:E; try discriminate.
  intros _. exists (VStr s). split; [now apply get_own | discriminate].
Qed.

Lemma lmi_injective (a b : string) : ("lmi_" ++ a = "lmi_" ++ b)%string -> a = b.
Proof. apply append_inj_l. Qed.

Lemma getAllProviders_loop_spec (entries : list (string * value)) :
  forall providers,
    well_formed entries ->
    (forall k, In k (map fst entries) ->
               ~ In ("lmi_" ++ k)%string (map fst providers)) ->
    exists configs,
      getAllProviders_loop entries providers = Some (providers ++ configs) /\
      Forall2 derived entries configs.
Proof.
  induction entries as [|[k v] rest IH]; intros providers [ND WF] Fresh.
  - exists []. now rewrite app_nil_r.
  - inversion ND as [|? ? Hk ND']; subst. inversion WF as [|? ? Hv WF']; subst.
    destruct (convertToRustFormat_total k v (metadata_named v Hv)) as [c Hc].
    cbn [getAllProviders_loop]. rewrite Hc. cbn [bind].
    rewrite obj_set_fresh by (apply Fresh; now left).
    destruct (IH (providers ++ [(("lmi_" ++ k)%string, c)])) as (configs & E & F).
    + now split.
    + intros k' Hin. rewrite map_app, in_app_iff. cbn.
      intros [H|[H|[]]].
      * apply (Fresh k'); [now right | exact H].
      * apply lmi_injective in H. subst. exact (Hk Hin).
    + exists ((("lmi_" ++ k)%string, c) :: configs). split.
      * now rewrite E, <- app_assoc.
      * constructor; [now split | exact F].
Qed.

Lemma derived_ids (entries configs : list (string * value)) :
  Forall2 derived entries configs ->
  map fst configs = map (fun kv => ("lmi_" ++ fst kv)%string) entries.
Proof. induction 1 as [|kv c ? ? [H _]]; cbn; [reflexivity | now f_equal]. Qed.

Lemma getAllProviders_spec (entries : list (string * value)) :
  well_formed entries ->
  exists configs,
    getAllProviders (catalog entries) = Some configs /\
    Forall2 derived entries configs.
Proof.
  intros WF. unfold getAllProviders. rewrite get_catalog. cbn [bind Object_entries].
  destruct (getAllProviders_loop_spec entries [] WF) as (configs & E & F);
    [intros ? _ []|]. eauto.
Qed.

(** C5.  Over a catalog (unique keys, every entry provider metadata),
    [getAllProviders] returns: it yields exactly one configuration per
    catalog entry, in catalog order, the one for key [k] under the id
    ["lmi_" ++ k] and equal to [convertToRustFormat k entry]; the ids are
    pairwise distinct, as the ids of distinct keys always are.  Being a
    function of the catalog alone, the derivation is pure. *)
Theorem getAllProviders_one_config_per_entry (entries : list (string * value)) :
  well_formed entries ->
  exists configs,
    getAllProviders (catalog entries) = Some configs /\
    List.length configs = List.length entries /\
    Forall2 derived entries configs /\
    NoDup (map fst configs) /\
    (forall k1 k2 : string, k1 <> k2 -> ("lmi_" ++ k1 <> "lmi_" ++ k2)%string).
Proof.
  intros WF. destruct (getAllProviders_spec entries WF) as (configs & E & F).
  exists configs. repeat split; trivial.
  - symmetry. exact (Forall2_length F).
  - rewrite (derived_ids _ _ F). destruct WF as [ND _].
    rewrite <- (map_map fst (fun k => ("lmi_" ++ k)%string)).
    apply Finite.Injective_map_NoDup; [|exact ND].
    intros a b. apply lmi_injective.
  - intros k1 k2 Hne H. apply Hne. now apply lmi_injective.
Qed.

Lemma example_entries_well_formed : well_formed example_entries.
Proof.
  split.
  - repeat constructor; cbn; intuition discriminate.
  - repeat constructor.
Qed.

Lemma getAllProviders_one_config_per_entry_witness :
  well_formed example_entries /\
  exists configs,
    getAllProviders (catalog example_entries) = Some configs /\
    List.length configs = List.length example_entries /\
    Forall2 derived example_entries configs /\
    NoDup (map fst configs) /\
    (forall k1 k2 : string, k1 <> k2 -> ("lmi_" ++ k1 <> "lmi_" ++ k2)%string).
Proof.
  split.
  - exact example_entries_well_formed.
  - apply (getAllProviders_one_config_per_entry example_entries).
    exact example_entries_well_formed.
Defined.

(** [getProvider] removes the first occurrence of ["lmi_"] and reads the
    result off the catalog object. *)
Lemma getProvider_prefixed (entries : list (string * value)) (k : string) :
  getProvider (catalog entries) ("lmi_" ++ k) =
  (providerConfig <- get (VObj entries) k ;;
   if negb (truthy providerConfig) then Some VNull
   else convertToRustFormat k providerConfig).
Proof.
  unfold getProvider. rewrite replace_prefixed. now rewrite get_catalog.
Qed.

Lemma derived_lookup (entries configs : list (string * value)) (k : string)
      (entry : value) :
  Forall2 derived entries configs ->
  assoc k entries = Some entry ->
  exists config,
    assoc ("lmi_" ++ k) configs = Some config /\
    convertToRustFormat k entry = Some config.
Proof.
  induction 1 as [|[k0 e0] [id0 c0] entries configs [Hid Hc] _ IH];
    cbn [assoc]; [discriminate|].
  cbn [fst snd] in Hid, Hc. subst id0.
  destruct (String.eqb_spec k k0) as [->|Hne].
  - intros [= <-]. exists c0. now rewrite String.eqb_refl.
  - intros H. destruct (String.eqb_spec ("lmi_" ++ k) ("lmi_" ++ k0)) as [E|_].
    + apply lmi_injective in E. contradiction.
    + now apply IH.
Qed.

Lemma metadata_truthy (entry : value) : is_metadata entry = true -> truthy entry = true.
Proof. now destruct entry. Qed.

(** C2, as the code has it.  For an id [lmi_k], [getProvider] strips the
    prefix and looks [k] up in the catalog: it returns the configuration
    derived from the entry when [k] is a catalog key (the one
    [getAllProviders] files under [lmi_k]), and [null] when [k] is neither a
    catalog key nor the name of a property every object inherits.  An id in
    which ["lmi_"] does not occur is looked up as it stands, so a bare
    catalog key [k] resolves to the same configuration as [lmi_k]. *)
Theorem getProvider_lookup (entries : list (string * value)) (k : string) :
  (forall entry, assoc k entries = Some entry -> truthy entry = true ->
     getProvider (catalog entries) ("lmi_" ++ k) = convertToRustFormat k entry) /\
  (well_formed entries ->
   forall entry, assoc k entries = Some entry ->
     exists configs config,
       getAllProviders (catalog entries) = Some configs /\
       assoc ("lmi_" ++ k) configs = Some config /\
       getProvider (catalog entries) ("lmi_" ++ k) = Some config) /\
  (assoc k entries = None -> inherited k = false ->
     getProvider (catalog entries) ("lmi_" ++ k) = Some VNull) /\
  (includes k "lmi_" = false ->
     getProvider (catalog entries) k = getProvider (catalog entries) ("lmi_" ++ k)).
Proof.
  assert (Found : forall entry, assoc k entries = Some entry -> truthy entry = true ->
     getProvider (catalog entries) ("lmi_" ++ k) = convertToRustFormat k entry).
  { intros entry Ha Ht. rewrite getProvider_prefixed, (get_own _ _ _ Ha).
    cbn [bind]. now rewrite Ht. }
  split; [exact Found|]. repeat split.
  - intros WF entry Ha.
    destruct (getAllProviders_spec entries WF) as (configs & E & F).
    destruct (derived_lookup _ _ _ _ F Ha) as (config & Hc & Hd).
    exists configs, config. repeat split; trivial.
    rewrite (Found entry Ha); [exact Hd|]. apply metadata_truthy.
    destruct WF as [_ WF]. rewrite Forall_forall in WF.
    exact (WF _ (assoc_present _ _ _ Ha)).
  - intros Ha Hi. rewrite getProvider_prefixed. unfold get, inherited in *.
    rewrite Ha. now destruct (Object_prototype k).
  - intros Hn. rewrite getProvider_prefixed. unfold getProvider.
    now rewrite (replace_absent _ _ _ Hn), get_catalog.
Qed.

Lemma getProvider_lookup_witness :
  getProvider (catalog example_entries) "lmi_openai"
    = convertToRustFormat "openai" openai_entry /\
  (exists configs config,
     getAllProviders (catalog example_entries) = Some configs /\
     assoc "lmi_openai" configs = Some config /\
     getProvider (catalog example_entries) "lmi_openai" = Some config) /\
  getProvider (catalog example_entries) "lmi_nowhere" = Some VNull /\
  getProvider (catalog example_entries) "openai"
    = getProvider (catalog example_entries) "lmi_openai".
Proof.
  destruct (getProvider_lookup example_entries "openai")
    as (Found & Filed & _ & Bare).
  destruct (getProvider_lookup example_entries "nowhere") as (_ & _ & Absent & _).
  split; [|split; [|split]].
  - apply (Found openai_entry); reflexivity.
  - apply (Filed example_entries_well_formed openai_entry). reflexivity.
  - apply Absent; reflexivity.
  - apply Bare; reflexivity.
Defined.

(** C2 as stated fails: the id [openai] carries no [lmi_] prefix, yet
    [getProvider] answers with the configuration of the catalog key
    [openai] instead of [null]. *)
Lemma getProvider_accepts_bare_key :
  isLMIProvider "openai" = false /\
  getProvider (catalog example_entries) "openai"
    = convertToRustFormat "openai" openai_entry /\
  getProvider (catalog example_entries) "openai" <> Some VNull.
Proof. repeat split. vm_compute. discriminate. Qed.

(** [convertToRustFormat] copies [wire_api] from the catalog entry. *)
Lemma convertToRustFormat_wire_api (k : string) (entry config : value) :
  convertToRustFormat k entry = Some config ->
  get config "wire_api" = get entry "wire_api".
Proof.
  unfold convertToRustFormat.
  destruct (get entry "name"); [|discriminate]. cbn [bind].
  destruct (get entry "base_url"); [|discriminate]. cbn [bind].
  destruct (get entry "env_key"); [|discriminate]. cbn [bind].
  destruct (getEnvKeyInstructions k entry); [|discriminate]. cbn [bind].
  destruct (get entry "wire_api"); [|discriminate]. cbn [bind].
  destruct (get entry "requires_openai_auth"); [|discriminate]. cbn [bind].
  now intros [= <-].
Qed.

(** C6, as the code has it.  The [wire_api] of each derived configuration
    is the [wire_api] field of its own catalog entry; hence every
    configuration carries ["lmi_bridge"] when every catalog entry declares
    it. *)
Theorem wire_api_follows_catalog (entries : list (string * value)) :
  well_formed entries ->
  exists configs,
    getAllProviders (catalog entries) = Some configs /\
    Forall2 (fun kv c => fst c = ("lmi_" ++ fst kv)%string /\
                         get (snd c) "wire_api" = get (snd kv) "wire_api")
            entries configs /\
    (Forall (fun kv => get (snd kv) "wire_api" = Some (VStr "lmi_bridge")) entries ->
     Forall (fun c => get (snd c) "wire_api" = Some (VStr "lmi_bridge")) configs).
Proof.
  intros WF. destruct (getAllProviders_spec entries WF) as (configs & E & F).
  exists configs. split; [exact E|]. clear E WF.
  induction F as [|kv c entries configs [Hid Hc] F [IH1 IH2]].
  - split; [constructor | trivial].
  - apply convertToRustFormat_wire_api in Hc. split.
    + constructor; [now split | exact IH1].
    + intros All. inversion All; subst.
      constructor; [congruence | now apply IH2].
Qed.

Lemma wire_api_follows_catalog_witness :
  well_formed example_entries /\
  exists configs,
    getAllProviders (catalog example_entries) = Some configs /\
    Forall2 (fun kv c => fst c = ("lmi_" ++ fst kv)%string /\
                         get (snd c) "wire_api" = get (snd kv) "wire_api")
            example_entries configs /\
    (Forall (fun kv => get (snd kv) "wire_api" = Some (VStr "lmi_bridge"))
            example_entries ->
     Forall (fun c => get (snd c) "wire_api" = Some (VStr "lmi_bridge")) configs).
Proof.
  split.
  - exact example_entries_well_formed.
  - apply (wire_api_follows_catalog example_entries).
    exact example_entries_well_formed.
Defined.

(** C6 as stated fails on the catalog of the end-to-end example: the entry
    [openai] declares no [wire_api], and the derived configuration carries
    [undefined], not ["lmi_bridge"], while the one of [ollama] carries
    ["lmi_bridge"]: the tag depends on the entry. *)
Lemma wire_api_not_constant :
  exists c1 c2,
    getAllProviders (catalog example_entries)
      = Some [("lmi_openai", c1); ("lmi_ollama", c2)] /\
    get c1 "wire_api" = Some VUndefined /\
    get c2 "wire_api" = Some (VStr "lmi_bridge") /\
    get c1 "wire_api" <> get c2 "wire_api".
Proof.
  do 2 eexists. split; [vm_compute; reflexivity|].
  repeat split. discriminate.
Qed.

(** What [getEnvKeyInstructions] does for a key that is not the name of an
    inherited property: the cataloged hint, or the generic one built from
    the display name; a non-empty string either way. *)
Lemma getEnvKeyInstructions_own_key (k : string) (entry : value) :
  inherited k = false ->
  is_metadata entry = true ->
  exists s,
    getEnvKeyInstructions k entry = Some (VStr s) /\ s <> EmptyString /\
    (forall hint, get instructions k = Some hint -> hint <> VUndefined ->
                  hint = VStr s) /\
    (get instructions k = Some VUndefined ->
     exists name, get entry "name" = Some (VStr name) /\
                  s = ("Get your API key from the " ++ name ++ " website")%string).
Proof.
  intros Hi Hm. unfold getEnvKeyInstructions.
  destruct (get instructions k) as [hint|] eqn:Hh.
  2:{ unfold instructions in Hh.
      match type of Hh with
      | get (VObj ?table) _ = _ => destruct (get_object table k) as [x Hx]
      end. congruence. }
  cbn [bind].
  destruct (instructions_own k hint Hh Hi) as [->|(s & -> & Hne & Ht)].
  - cbn [truthy]. destruct entry; try discriminate. unfold is_metadata in Hm.
    destruct (assoc "name" props) as [[]|] eqn:E; try discriminate.
    rewrite (get_own _ _ _ E). cbn [bind ToString].
    eexists. split; [reflexivity|]. split; [discriminate|]. split.
    + intros hint [= <-] Hu. now elim Hu.
    + intros _. eauto.
  - rewrite Ht. exists s. repeat split; trivial.
    + now intros hint [= <-] _.
    + discriminate.
Qed.

(** C8 fails on the code at the key [constructor]: the lookup in the
    object literal [instructions] follows the prototype chain and finds the
    built-in function [Object], which is truthy, so the fallback is skipped
    and a function, not a string, is returned.  [getProvider] reaches this
    path with the id [lmi_constructor] on any catalog. *)
Theorem getEnvKeyInstructions_inherited_key :
  getEnvKeyInstructions "constructor" openai_entry = Some (VNative "Object") /\
  (forall s, getEnvKeyInstructions "constructor" openai_entry <> Some (VStr s)) /\
  exists config,
    getProvider (catalog example_entries) "lmi_constructor" = Some config /\
    get config "env_key_instructions" = Some (VNative "Object").
Proof.
  split; [reflexivity|]. split; [discriminate|].
  eexists. split; [vm_compute; reflexivity | reflexivity].
Qed.

(** C9.  When [lmi-providers.json] cannot be read or is not valid JSON,
    the registry state is [{ providers: {} }]: [getAllProviders] returns
    the empty mapping, [listProviderIds] the empty list,
    [generateTOMLConfig] the header line followed by an empty line, and
    [getProvider] returns for every id. *)
Theorem registry_without_catalog (rt : Runtime) (file : option string) :
  (file = None \/
   exists data error, file = Some data /\ JSON_parse rt data = inr error) ->
  let lmiProviders := loadLMIProviders rt file in
  lmiProviders = empty_config /\
  getAllProviders lmiProviders = Some [] /\
  listProviderIds lmiProviders = Some [] /\
  generateTOMLConfig lmiProviders = Some ("[model_providers]" ++ LF ++ LF)%string /\
  (forall id, exists result, getProvider lmiProviders id = Some result).
Proof.
  intros H lmiProviders.
  assert (E : lmiProviders = empty_config).
  { unfold lmiProviders, loadLMIProviders.
    destruct H as [->|(data & error & -> & ->)]; reflexivity. }
  rewrite E. repeat split. intros id. unfold getProvider.
  set (cleanId := replace id "lmi_" EmptyString).
  change (get empty_config "providers") with (Some (VObj [])). cbn [bind].
  unfold get at 1. cbn [assoc].
  destruct (Object_prototype cleanId) as [v|] eqn:P; cbn [bind].
  - assert (T : truthy v = true /\
                exists name, get v "name" = Some name /\ ToString name <> None).
    { destruct (Object_prototype_values _ _ P) as [->|[n ->]].
      - split; [reflexivity|]. exists VUndefined. split; [reflexivity|discriminate].
      - split; [reflexivity|]. exists (VStr n). split; [reflexivity|discriminate]. }
    destruct T as [-> T]. cbn [negb].
    destruct (convertToRustFormat_total cleanId v T) as [c ->]. eauto.
  - cbn. eauto.
Qed.

Lemma registry_without_catalog_witness :
  let rt := ModelBridgeService.sample_runtime [] in
  let lmiProviders := loadLMIProviders rt (Some "{ providers: ") in
  lmiProviders = empty_config /\
  getAllProviders lmiProviders = Some [] /\
  listProviderIds lmiProviders = Some [] /\
  generateTOMLConfig lmiProviders = Some ("[model_providers]" ++ LF ++ LF)%string /\
  (forall id, exists result, getProvider lmiProviders id = Some result).
Proof.
  apply (registry_without_catalog (ModelBridgeService.sample_runtime [])
           (Some "{ providers: ")).
  right. do 2 eexists. split; reflexivity.
Defined.

(** ** The configuration emitter *)

Lemma extends_refl (a : string) : extends a a.
Proof. exists EmptyString. induction a; cbn; [reflexivity | now f_equal]. Qed.

Lemma extends_trans (a b c : string) : extends a b -> extends b c -> extends a c.
Proof. intros [r ->] [r' ->]. exists (r ++ r')%string. apply append_assoc. Qed.

Lemma extends_app (a r : string) : extends a (a ++ r).
Proof. now exists r. Qed.

Lemma extends_includes (a b pat : string) :
  extends a b -> includes a pat = true -> includes b pat = true.
Proof. intros [r ->]. apply includes_app_l. Qed.

Lemma quoted_line_extends (toml key : string) (v : value) (t : string) :
  quoted_line toml key v = Some t -> extends toml t.
Proof.
  unfold quoted_line. destruct (ToString v); [|discriminate].
  intros [= <-]. apply extends_app.
Qed.

Lemma optional_line_extends (toml key : string) (v : value) (t : string) :
  optional_line toml key v = Some t -> extends toml t.
Proof.
  unfold optional_line. destruct (truthy v).
  - apply quoted_line_extends.
  - intros [= <-]. apply extends_refl.
Qed.

Lemma generateTOMLConfig_block_extends (toml id : string) (provider : value) (t : string) :
  generateTOMLConfig_block toml id provider = Some t ->
  extends (toml ++ "[model_providers." ++ id ++ "]" ++ LF) t.
Proof.
  unfold generateTOMLConfig_block. intros H.
  repeat match type of H with
         | bind ?a _ = Some _ =>
             let E := fresh "E" in
             destruct a eqn:E; cbn [bind] in H; [|discriminate]
         end.
  injection H as <-.
  repeat match goal with
         | E : quoted_line _ _ _ = Some _ |- _ => apply quoted_line_extends in E
         | E : optional_line _ _ _ = Some _ |- _ => apply optional_line_extends in E
         end.
  eauto 10 using extends_trans, extends_app.
Qed.

Lemma generateTOMLConfig_loop_extends (entries : list (string * value)) :
  forall toml t, generateTOMLConfig_loop entries toml = Some t -> extends toml t.
Proof.
  induction entries as [|[id provider] rest IH]; cbn [generateTOMLConfig_loop];
    intros toml t H.
  - injection H as <-. apply extends_refl.
  - destruct (generateTOMLConfig_block toml id provider) as [t'|] eqn:E;
      [cbn [bind] in H | discriminate].
    apply generateTOMLConfig_block_extends in E. apply IH in H.
    eapply extends_trans; [|exact H].
    eapply extends_trans; [|exact E]. apply extends_app.
Qed.

Lemma obj_set_namespaced (props : list (string * value)) (k : string) (v : value) :
  Forall namespaced props -> Forall namespaced (obj_set props ("lmi_" ++ k) v).
Proof.
  induction 1 as [|[k' v'] props Hk' Hprops IH]; cbn [obj_set].
  - constructor; [now exists k | constructor].
  - destruct (String.eqb _ k'); constructor; assumption.
Qed.

Lemma getAllProviders_loop_namespaced (entries : list (string * value)) :
  forall providers result,
    Forall namespaced providers ->
    getAllProviders_loop entries providers = Some result ->
    Forall namespaced result.
Proof.
  induction entries as [|[k v] rest IH]; cbn [getAllProviders_loop];
    intros providers result Hp H.
  - now injection H as <-.
  - destruct (convertToRustFormat k v); [cbn [bind] in H | discriminate].
    eapply IH; [|exact H]. now apply obj_set_namespaced.
Qed.

Lemma getAllProviders_namespaced (lmiProviders : value) (providers : list (string * value)) :
  getAllProviders lmiProviders = Some providers -> Forall namespaced providers.
Proof.
  unfold getAllProviders.
  destruct (get lmiProviders "providers"); [cbn [bind] | discriminate].
  destruct (Object_entries v); [cbn [bind] | discriminate].
  apply getAllProviders_loop_namespaced. constructor.
Qed.

(** A rendering of at least one provider contains the marker. *)
Lemma generateTOMLConfig_marked (lmiProviders : value)
      (providers : list (string * value)) (toml : string) :
  getAllProviders lmiProviders = Some providers ->
  providers <> [] ->
  generateTOMLConfig lmiProviders = Some toml ->
  includes toml LMICLI.marker = true.
Proof.
  intros Hp Hne. unfold generateTOMLConfig. rewrite Hp. cbn [bind].
  apply getAllProviders_namespaced in Hp.
  destruct providers as [|[id provider] rest]; [congruence|].
  inversion Hp as [|? ? [k Hk] _]; subst. cbn [fst] in Hk. subst id.
  cbn [generateTOMLConfig_loop].
  destruct (generateTOMLConfig_block _ _ provider) as [t|] eqn:E;
    [cbn [bind] | discriminate].
  intros H. apply generateTOMLConfig_loop_extends in H.
  apply generateTOMLConfig_block_extends in E.
  eapply extends_includes; [exact H|].
  eapply extends_includes; [exact E|].
  apply includes_app_r.
  change ("[model_providers." ++ ("lmi_" ++ k) ++ "]" ++ LF)%string
    with (LMICLI.marker ++ (k ++ "]" ++ LF))%string.
  apply includes_here.
Qed.

(** C7, as the code has it.  When the rendering succeeds, [addToConfig]
    appends a comment line and the rendered document to a configuration
    that lacks the marker ["[model_providers.lmi_"], and leaves a
    configuration that contains it untouched, reporting that the providers
    are already configured.  When the registry holds at least one provider,
    running [addToConfig] a second time changes nothing. *)
Theorem addToConfig_merge (lmiProviders : value) (toml : string) :
  generateTOMLConfig lmiProviders = Some toml ->
  (forall existing,
     includes existing LMICLI.marker = false ->
     LMICLI.addToConfig lmiProviders (LMICLI.File existing true)
       = (LMICLI.Added,
          LMICLI.File (existing ++ LMICLI.banner ++ toml) true)) /\
  (forall existing writable,
     includes existing LMICLI.marker = true ->
     LMICLI.addToConfig lmiProviders (LMICLI.File existing writable)
       = (LMICLI.AlreadyConfigured, LMICLI.File existing writable)) /\
  (forall providers,
     getAllProviders lmiProviders = Some providers -> providers <> [] ->
     forall config,
       snd (LMICLI.addToConfig lmiProviders
              (snd (LMICLI.addToConfig lmiProviders config)))
       = snd (LMICLI.addToConfig lmiProviders config)).
Proof.
  intros Ht. split; [|split].
  - intros existing Hm. unfold LMICLI.addToConfig. now rewrite Ht, Hm.
  - intros existing writable Hm. unfold LMICLI.addToConfig. now rewrite Ht, Hm.
  - intros providers Hp Hne [| |existing writable]; try reflexivity.
    pose proof (generateTOMLConfig_marked _ _ _ Hp Hne Ht) as Hmark.
    unfold LMICLI.addToConfig. rewrite Ht.
    destruct (includes existing LMICLI.marker) eqn:Hm.
    + cbn [snd]. now rewrite Hm.
    + destruct writable; cbn [snd].
      * rewrite includes_app_r; [reflexivity|]. now apply includes_app_r.
      * now rewrite Hm.
Qed.

Lemma addToConfig_merge_witness :
  exists toml,
    generateTOMLConfig (catalog example_entries) = Some toml /\
    LMICLI.addToConfig (catalog example_entries) (LMICLI.File "model = x" true)
      = (LMICLI.Added,
         LMICLI.File ("model = x" ++ LMICLI.banner ++ toml) true) /\
    snd (LMICLI.addToConfig (catalog example_entries)
           (snd (LMICLI.addToConfig (catalog example_entries)
                   (LMICLI.File "model = x" true))))
      = snd (LMICLI.addToConfig (catalog example_entries)
               (LMICLI.File "model = x" true)).
Proof.
  destruct (generateTOMLConfig (catalog example_entries)) as [toml|] eqn:Ht;
    [|vm_compute in Ht; discriminate].
  exists toml. split; [reflexivity|].
  destruct (addToConfig_merge (catalog example_entries) toml Ht)
    as (Append & _ & Twice).
  split.
  - apply Append. reflexivity.
  - destruct (getAllProviders (catalog example_entries)) as [providers|] eqn:Hp;
      [|vm_compute in Hp; discriminate].
    apply (Twice providers eq_refl).
    vm_compute in Hp. injection Hp as <-. discriminate.
Defined.

(** C7 as stated fails for the registry without providers (the state
    after a failed catalog load): its rendering is the bare header, which
    does not contain the marker, so a second [addToConfig] appends the
    header once more. *)
Lemma addToConfig_twice_differs :
  let once := snd (LMICLI.addToConfig empty_config (LMICLI.File EmptyString true)) in
  let twice := snd (LMICLI.addToConfig empty_config once) in
  twice <> once.
Proof. vm_compute. discriminate. Qed.

(** ** Numbers as texts

    Integers up to [2 ^ 53] print with all their digits; beyond, with the
    fewest digits that denote the same Number, and from [10 ^ 21] on in
    exponent form. *)
Example Number_toString_texts :
  map Z_to_string
      [0; -42; 2 ^ 53; 2 ^ 53 + 1; 2 ^ 60; 10 ^ 21 - 1; 10 ^ 21; - 10 ^ 23;
       123456789012345678901234567890; 2 ^ 1024]%Z
  = ["0"; "-42"; "9007199254740992"; "9007199254740992"; "1152921504606847000";
     "1e+21"; "1e+21"; "-1e+23"; "1.2345678901234568e+29"; "Infinity"].
Proof. vm_compute. reflexivity. Qed.

Example JSON_stringify_numbers :
  JSON_stringify (VArr [VNum 7; VNum (10 ^ 21); VNum (2 ^ 1024)])
  = Some "[7,1e+21,null]".
Proof. vm_compute. reflexivity. Qed.

(** ** JSON.stringify never emits a line break *)

Lemma no_break_app (a b : string) : no_break (a ++ b) = no_break a && no_break b.
Proof.
  induction a as [|c a IH]; cbn [append no_break]; [reflexivity|].
  now rewrite IH, andb_assoc.
Qed.

Lemma escape_char_no_break (c : ascii) : no_break (escape_char c) = true.
Proof.
  destruct c as [[] [] [] [] [] [] [] []]; vm_compute; reflexivity.
Qed.

Lemma escape_no_break (s : string) : no_break (escape s) = true.
Proof.
  induction s as [|c s IH]; cbn [escape]; [reflexivity|].
  now rewrite no_break_app, escape_char_no_break, IH.
Qed.

Lemma quote_no_break (s : string) : no_break (quote s) = true.
Proof. unfold quote. now rewrite !no_break_app, escape_no_break. Qed.

Lemma string_of_uint_no_break (d : Decimal.uint) :
  no_break (NilEmpty.string_of_uint d) = true.
Proof. induction d; cbn [NilEmpty.string_of_uint no_break]; trivial. Qed.

Lemma NilZero_string_of_uint_no_break (d : Decimal.uint) :
  no_break (NilZero.string_of_uint d) = true.
Proof.
  unfold NilZero.string_of_uint.
  destruct d; try reflexivity; apply string_of_uint_no_break.
Qed.

Lemma digits_no_break (x : Z) : no_break (digits x) = true.
Proof.
  unfold digits, NilZero.string_of_int.
  destruct (Z.to_int x) as [d|d].
  - apply NilZero_string_of_uint_no_break.
  - cbn [no_break]. now rewrite NilZero_string_of_uint_no_break.
Qed.

Lemma significand_no_break (s : string) :
  no_break s = true -> no_break (significand s) = true.
Proof.
  induction s as [|c s IH]; [reflexivity|]. cbn [no_break significand].
  intros H. apply andb_true_iff in H as [Hc Hs]. specialize (IH Hs).
  destruct (significand s) as [|c' kept].
  - destruct (Ascii.eqb c "0"); [reflexivity|]. cbn [no_break]. now rewrite Hc.
  - cbn [no_break] in *. now rewrite Hc, IH.
Qed.

Lemma Number_toString_no_break (x : Z) : no_break (Number_toString x) = true.
Proof.
  unfold Number_toString.
  set (v := shortest _ _ _). destruct (v <? 10 ^ 21)%Z; [apply digits_no_break|].
  pose proof (significand_no_break _ (digits_no_break v)) as H.
  destruct (significand (digits v)) as [|c [|c' rest]]; [reflexivity| |];
    cbn [no_break] in H; apply andb_true_iff in H as [Hc Hr].
  - cbn [no_break]. rewrite Hc. cbn [andb].
    now rewrite no_break_app, digits_no_break.
  - cbn [no_break]. rewrite Hc. cbn [andb].
    change (no_break ("." ++ String c' rest ++ "e+" ++ digits (Z.of_nat (String.length (digits v)) - 1)) = true).
    rewrite !no_break_app. cbn [no_break] in Hr |- *.
    now rewrite Hr, digits_no_break.
Qed.

Lemma Z_to_string_no_break (n : Z) : no_break (Z_to_string n) = true.
Proof.
  unfold Z_to_string. destruct (finite n).
  - rewrite no_break_app, Number_toString_no_break. now destruct (n <? 0)%Z.
  - now destruct (n <? 0)%Z.
Qed.

Lemma join_no_break (sep : string) (parts : list string) :
  no_break sep = true ->
  Forall (fun part => no_break part = true) parts ->
  no_break (join sep parts) = true.
Proof.
  intros Hsep. induction 1 as [|x rest Hx Hrest IH]; [reflexivity|].
  destruct rest as [|y rest]; [exact Hx|].
  change (join sep (x :: y :: rest)) with (x ++ sep ++ join sep (y :: rest))%string.
  now rewrite !no_break_app, Hx, Hsep, IH.
Qed.

Lemma bracket_no_break (opening closing body : string) :
  no_break opening = true -> no_break closing = true -> no_break body = true ->
  no_break (opening ++ body ++ closing) = true.
Proof. intros H1 H2 H3. now rewrite !no_break_app, H1, H2, H3. Qed.

Lemma JSON_stringify_no_break (v : value) :
  forall text, JSON_stringify v = Some text -> no_break text = true.
Proof.
  induction v as [ | | b | n | s | xs IH | props IH | n ] using value_induction;
    cbn [JSON_stringify]; intros text H; try discriminate;
    injection H as <-.
  - reflexivity.
  - now destruct b.
  - destruct (finite n); [apply Z_to_string_no_break | reflexivity].
  - apply quote_no_break.
  - apply (bracket_no_break "[" "]"); [reflexivity..|].
    apply join_no_break; [reflexivity|].
    induction IH as [|x rest Hx _ IHrest]; cbn [map]; constructor; [|exact IHrest].
    destruct (JSON_stringify x); [now apply Hx | reflexivity].
  - apply (bracket_no_break "{" "}"); [reflexivity..|].
    apply join_no_break; [reflexivity|].
    induction IH as [|[k x] rest Hx _ IHrest]; cbn [flat_map]; [constructor|].
    cbn [snd fst] in *. destruct (JSON_stringify x) as [t|]; [|exact IHrest].
    constructor; [|exact IHrest].
    change (no_break (quote k ++ ":" ++ t) = true).
    rewrite !no_break_app, quote_no_break, (Hx t eq_refl). reflexivity.
Qed.

Import ModelBridgeService.

Lemma sendResponse_one_line (response : value) : one_line (sendResponse response).
Proof.
  unfold sendResponse, console_log.
  destruct (JSON_stringify response) as [text|] eqn:E.
  - exists text. split; [reflexivity|]. exact (JSON_stringify_no_break _ _ E).
  - now exists "undefined".
Qed.

Lemma sendError_one_line (error : error_info) : one_line (sendError error).
Proof. apply sendResponse_one_line. Qed.

(** ** The event loop, turn by turn *)

Section EventLoop.

Context (rt : Runtime).

Lemma step_exited (s : server) (t : turn) (code : Z) :
  exited s = Some code -> step rt s t = s.
Proof. intros H. unfold step. now rewrite H. Qed.

(** Moves one element to the front of a concatenation. *)
Ltac perm_move :=
  rewrite ?map_app; cbn [map fst snd tid];
  rewrite <- ?app_assoc; cbn [app]; rewrite ?app_assoc;
  apply Permutation_cons_app;
  rewrite ?app_nil_r, <- ?app_assoc; cbn [app]; reflexivity.

Lemma continue_facts (id : nat) (p : async value) (s : server) :
  received (continue id p s) = received s /\
  exited (continue id p s) = exited s /\
  (tidy s -> tidy (continue id p s)) /\
  Permutation (id :: ids s) (ids (continue id p s)).
Proof.
  unfold tidy, ids.
  destruct p as [response|error|c k]; cbn [continue write suspend received
    exited stdout waiting]; repeat split; trivial; try perm_move.
  - intros T. apply Forall_app. split; [exact T|].
    constructor; [apply sendResponse_one_line | constructor].
  - intros T. apply Forall_app. split; [exact T|].
    constructor; [apply sendError_one_line | constructor].
Qed.

Lemma on_line_facts (s : server) (jobs : list (nat * async value)) (line : string) :
  let st := on_line rt (s, jobs) line in
  received (fst st) = S (received s) /\
  exited (fst st) = exited s /\
  (tidy s -> tidy (fst st)) /\
  Permutation (received s :: ids s ++ map fst jobs)
              (ids (fst st) ++ map fst (snd st)).
Proof.
  unfold on_line, tidy, ids.
  destruct (JSON_parse rt line) as [request|error].
  - destruct (handleRequest rt request) as [response|error|c k];
      cbn [fst snd count_line write suspend received exited stdout waiting];
      repeat split; trivial; perm_move.
  - cbn [fst snd count_line write suspend received exited stdout waiting].
    repeat split; trivial; try perm_move.
    intros T. apply Forall_app. split; [exact T|].
    constructor; [apply sendError_one_line | constructor].
Qed.

Lemma lines_facts (lines : list string) :
  forall s jobs,
    let st := fold_left (on_line rt) lines (s, jobs) in
    received (fst st) = received s + List.length lines /\
    exited (fst st) = exited s /\
    (tidy s -> tidy (fst st)) /\
    (accounted s jobs -> accounted (fst st) (snd st)).
Proof.
  induction lines as [|line rest IH]; intros s jobs; cbn [fold_left].
  - cbn. rewrite Nat.add_0_r. tauto.
  - destruct (on_line_facts s jobs line) as (R & X & T & P).
    destruct (on_line rt (s, jobs) line) as [s1 jobs1] eqn:E. cbn [fst snd] in *.
    destruct (IH s1 jobs1) as (R' & X' & T' & P'). cbn zeta in *.
    repeat split.
    + rewrite R', R. cbn [List.length]. lia.
    + congruence.
    + auto.
    + intros A. apply P'. unfold accounted in *. rewrite R, seq_S, <- P.
      rewrite <- Permutation_cons_append. now constructor.
Qed.

Lemma drain_facts (jobs : list (nat * async value)) :
  forall s,
    received (drain (s, jobs)) = received s /\
    exited (drain (s, jobs)) = exited s /\
    (tidy s -> tidy (drain (s, jobs))) /\
    Permutation (ids (drain (s, jobs))) (ids s ++ map fst jobs).
Proof.
  unfold drain. cbn [fst snd].
  induction jobs as [|[id p] rest IH]; intros s; cbn [fold_left map fst snd].
  - rewrite app_nil_r. auto.
  - destruct (continue_facts id p s) as (R & X & T & P).
    destruct (IH (continue id p s)) as (R' & X' & T' & P').
    repeat split; try congruence; auto.
    rewrite P', <- P. cbn [app]. apply Permutation_middle.
Qed.

Lemma remove_nth_perm {A : Type} (l : list A) :
  forall i x, nth_error l i = Some x -> Permutation l (x :: remove_nth i l).
Proof.
  induction l as [|y l IH]; intros [|i] x H; cbn in *; try discriminate.
  - now injection H as ->.
  - rewrite perm_swap. constructor. now apply IH.
Qed.

Lemma step_facts (s : server) (t : turn) :
  (tidy s -> tidy (step rt s t)) /\
  (accounted s [] -> accounted (step rt s t) []) /\
  (exited (step rt s t) = None ->
   exited s = None /\
   received (step rt s t)
     = received s + match t with Chunk lines => List.length lines | _ => 0 end).
Proof.
  unfold step. destruct (exited s) as [code|] eqn:X.
  - repeat split; trivial; congruence.
  - destruct t as [lines|i o|].
    + destruct (lines_facts lines s []) as (R & X' & T & P).
      destruct (fold_left (on_line rt) lines (s, [])) as [s1 jobs1].
      cbn [fst snd] in *.
      destruct (drain_facts jobs1 s1) as (R' & X'' & T' & P').
      repeat split; auto; try congruence.
      intros A. specialize (P A). unfold accounted in *.
      rewrite app_nil_r, R', P'. exact P.
    + destruct (nth_error (waiting s) i) as [t|] eqn:N.
      * match goal with |- context [continue ?id ?p ?s'] =>
          destruct (continue_facts id p s') as (R & X' & T & P)
        end.
        cbn [received exited stdout] in *.
        repeat split; auto; try lia.
        intros A. unfold accounted in *. rewrite app_nil_r in *.
        rewrite R, <- P. cbn [received]. rewrite <- A. unfold ids.
        cbn [stdout waiting].
        rewrite (remove_nth_perm _ _ _ N) at 2. cbn [map].
        apply Permutation_middle.
      * repeat split; auto; lia.
    + repeat split; trivial; cbn; discriminate.
Qed.

Lemma run_snoc (s : server) (turns : list turn) (t : turn) :
  run rt s (turns ++ [t]) = step rt (run rt s turns) t.
Proof. unfold run. now rewrite fold_left_app. Qed.

Lemma run_facts (turns : list turn) :
  forall s,
    (tidy s -> tidy (run rt s turns)) /\
    (accounted s [] -> accounted (run rt s turns) []) /\
    (exited (run rt s turns) = None ->
     received (run rt s turns) = received s + List.length (lines_of turns)).
Proof.
  induction turns as [|t rest IH]; intros s.
  - cbn. rewrite Nat.add_0_r. tauto.
  - change (run rt s (t :: rest)) with (run rt (step rt s t) rest).
    destruct (step_facts s t) as (T & A & R).
    destruct (IH (step rt s t)) as (T' & A' & R').
    repeat split; auto.
    intros X. rewrite (R' X).
    assert (Xs : exited (step rt s t) = None).
    { destruct (exited (step rt s t)) as [code|] eqn:E; [|reflexivity].
      clear - X E. revert X. generalize (step rt s t) E. clear.
      induction rest as [|t' rest IH]; intros s' E X; [cbn in X; congruence|].
      apply (IH s' E). change (run rt s' (t' :: rest))
        with (run rt (step rt s' t') rest) in X.
      now rewrite (step_exited _ _ _ E) in X. }
    destruct (R Xs) as [_ ->]. unfold lines_of. cbn [flat_map].
    rewrite length_app. fold (lines_of rest).
    destruct t; cbn [List.length]; lia.
Qed.

Lemma step_in_order (s : server) (t : turn) :
  in_order s ->
  match t with
  | Chunk lines => List.length lines <= 1 /\ waiting s = []
  | _ => True
  end ->
  in_order (step rt s t).
Proof.
  intros [I W] H. unfold step. destruct (exited s) eqn:X; [now split|].
  unfold in_order, ids in *. destruct t as [lines|i o|].
  - destruct H as [Hlen Hw]. rewrite Hw in I, W. cbn [map] in I.
    rewrite app_nil_r in I.
    destruct lines as [|line [|]]; [| | cbn in Hlen; lia].
    { unfold drain. cbn [fold_left fst snd]. rewrite Hw, app_nil_r. now split. }
    cbn [fold_left]. unfold on_line.
    destruct (JSON_parse rt line) as [request|error].
    + destruct (handleRequest rt request) as [response|error|c k];
        unfold drain;
        cbn [fst snd fold_left app continue count_line write suspend
             received exited stdout waiting];
        rewrite Hw, ?map_app, ?app_nil_r, I, seq_S; cbn [map fst app tid List.length];
        auto.
    + unfold drain.
      cbn [fst snd fold_left app continue count_line write suspend
           received exited stdout waiting].
      rewrite Hw, ?map_app, ?app_nil_r, I, seq_S. cbn [map fst List.length]. auto.
  - destruct (nth_error (waiting s) i) as [t|] eqn:N; [|now split].
    destruct (waiting s) as [|t' [|]] eqn:Hw; [now destruct i | | cbn in W; lia].
    destruct i as [|i]; [|now destruct i]. injection N as ->.
    cbn [remove_nth]. cbn [map] in I.
    destruct (resume t o) as [response|error|c k];
      cbn [continue write suspend received exited stdout waiting map
           List.length app tid];
      rewrite ?map_app, ?app_nil_r; cbn [map fst]; auto.
  - cbn [received stdout waiting]. now split.
Qed.

Lemma run_in_order (turns : list turn) :
  forall s, in_order s -> serial rt s turns = true -> in_order (run rt s turns).
Proof.
  induction turns as [|t rest IH]; intros s I S; [exact I|].
  cbn [serial] in S. apply andb_true_iff in S as [St Sr].
  change (run rt s (t :: rest)) with (run rt (step rt s t) rest).
  apply IH; [|exact Sr]. apply step_in_order; [exact I|].
  destruct t; trivial.
  apply andb_true_iff in St as [L E].
  apply Nat.leb_le in L. apply Nat.eqb_eq, length_zero_iff_nil in E. now split.
Qed.

Lemma handleRequest_unserved (request : value) :
  served (field request "type") = false ->
  exists error, handleRequest rt request = Raise error.
Proof.
  intros H. unfold handleRequest.
  destruct request; try (eexists; reflexivity);
    (destruct (field _ "type") as [ | | | |t| | | ] eqn:E;
     [destruct (ToString _); eexists; reflexivity ..
     | | destruct (ToString _); eexists; reflexivity
       | destruct (ToString _); eexists; reflexivity
       | destruct (ToString _); eexists; reflexivity]);
    cbn [served] in H; apply orb_false_iff in H as [H H3];
    apply orb_false_iff in H as [H1 H2]; rewrite H1, H2, H3;
    destruct (ToString _); eexists; reflexivity.
Qed.

Lemma handleRequest_served (request : value) :
  served (field request "type") = true ->
  exists c, handleRequest rt request = Await c (settled rt) /\ dispatched request c.
Proof.
  intros H. unfold handleRequest, dispatched.
  destruct request; try discriminate H;
    (destruct (field _ "type") as [ | | | |t| | | ] eqn:E; try discriminate H;
     cbn [served] in H;
     destruct (String.eqb_spec t "chat_completion") as [->|N1];
     [|destruct (String.eqb_spec t "list_models") as [->|N2];
       [|destruct (String.eqb_spec t "list_providers") as [->|N3];
         [|discriminate H]]];
     eexists; (split; [reflexivity|]); repeat split;
     intros [= Ht]; try reflexivity; congruence).
Qed.

Lemma handleRequest_cases (request : value) :
  (exists error, handleRequest rt request = Raise error) \/
  (exists c, handleRequest rt request = Await c (settled rt)).
Proof.
  destruct (served (field request "type")) eqn:S.
  - right. destruct (handleRequest_served request S) as (c & E & _). eauto.
  - left. exact (handleRequest_unserved request S).
Qed.

Lemma settled_cases (o : outcome) :
  (exists response, settled rt o = Return response /\ shaped response) \/
  (exists error, settled rt o = Raise error).
Proof.
  destruct o as [data|error]; cbn [settled].
  - left. eexists. split; [reflexivity | apply shaped_success].
  - destruct (get error "message") as [msg|].
    + left. eexists. split; [reflexivity | apply shaped_failure].
    + right. eauto.
Qed.

Lemma sendError_response_line (error : error_info) : response_line (sendError error).
Proof. exists (error_response error). split; [apply shaped_error | reflexivity]. Qed.

Lemma write_sound (id : nat) (text : string) (s : server) :
  response_line text -> sound rt s -> sound rt (write id text s).
Proof.
  intros R [A O]. split; [exact A|]. cbn [write stdout].
  apply Forall_app. split; [exact O | now repeat constructor].
Qed.

Lemma on_line_sound (s : server) (jobs : list (nat * async value)) (line : string) :
  sound rt s ->
  Forall (fun job => exists error, snd job = Raise error) jobs ->
  sound rt (fst (on_line rt (s, jobs) line)) /\
  Forall (fun job => exists error, snd job = Raise error)
         (snd (on_line rt (s, jobs) line)).
Proof.
  intros S J. unfold on_line.
  destruct (JSON_parse rt line) as [request|error].
  - destruct (handleRequest_cases request) as [[error ->]|[c ->]]; cbn [fst snd].
    + split; [exact S|]. apply Forall_app. split; [exact J|]. repeat constructor.
      now exists error.
    + split; [|exact J]. destruct S as [A O]. split; [|exact O].
      unfold awaits_once. cbn [suspend count_line waiting].
      apply Forall_app. split; [exact A | now repeat constructor].
  - cbn [fst snd]. split; [|exact J].
    apply write_sound; [apply sendError_response_line | exact S].
Qed.

Lemma lines_sound (lines : list string) :
  forall s jobs,
    sound rt s ->
    Forall (fun job => exists error, snd job = Raise error) jobs ->
    sound rt (fst (fold_left (on_line rt) lines (s, jobs))) /\
    Forall (fun job => exists error, snd job = Raise error)
           (snd (fold_left (on_line rt) lines (s, jobs))).
Proof.
  induction lines as [|line rest IH]; intros s jobs S J; cbn [fold_left];
    [now split|].
  destruct (on_line_sound s jobs line S J) as [S' J'].
  destruct (on_line rt (s, jobs) line) as [s1 jobs1]. now apply IH.
Qed.

Lemma drain_sound (jobs : list (nat * async value)) :
  forall s,
    sound rt s ->
    Forall (fun job => exists error, snd job = Raise error) jobs ->
    sound rt (drain (s, jobs)).
Proof.
  unfold drain. cbn [fst snd].
  induction jobs as [|[id p] rest IH]; intros s S J; cbn [fold_left]; [exact S|].
  inversion J as [|? ? [error E] J']; subst. cbn [fst snd] in *. subst p.
  apply IH; [|exact J']. cbn [continue].
  apply write_sound; [apply sendError_response_line | exact S].
Qed.

Lemma Forall_remove_nth {A : Type} (P : A -> Prop) (l : list A) :
  forall i, Forall P l -> Forall P (remove_nth i l).
Proof.
  induction l as [|x l IH]; intros [|i] H; cbn [remove_nth]; trivial;
    inversion H; subst; [assumption | constructor; auto].
Qed.

(** What a settlement does in a sound state: one write, for the request
    itself, carrying a response; the handler is gone. *)
Lemma settle_sound (s : server) (i : nat) (o : outcome) (t : task) :
  sound rt s -> exited s = None -> nth_error (waiting s) i = Some t ->
  exists text,
    response_line text /\
    step rt s (Settle i o)
    = {| waiting := remove_nth i (waiting s);
         stdout := stdout s ++ [(tid t, text)];
         received := received s; exited := None |}.
Proof.
  intros [A O] X N. unfold step. rewrite X, N.
  assert (R : resume t = settled rt).
  { unfold awaits_once in A. rewrite Forall_forall in A.
    apply A. eapply nth_error_In; eauto. }
  rewrite R.
  destruct (settled_cases o) as [(response & -> & Sh)|[error ->]];
    cbn [continue]; unfold write; cbn [waiting stdout received exited].
  - eexists. split; [|reflexivity]. now exists response.
  - eexists. split; [apply sendError_response_line | reflexivity].
Qed.

Lemma step_sound (s : server) (t : turn) : sound rt s -> sound rt (step rt s t).
Proof.
  intros S. destruct (exited s) as [code|] eqn:X;
    [now rewrite (step_exited s t code X)|].
  destruct t as [lines|i o|].
  - unfold step. rewrite X.
    destruct (lines_sound lines s [] S (Forall_nil _)) as [S' J'].
    destruct (fold_left (on_line rt) lines (s, [])) as [s1 jobs1].
    now apply drain_sound.
  - destruct (nth_error (waiting s) i) as [t|] eqn:N.
    + destruct (settle_sound s i o t S X N) as (text & R & ->).
      destruct S as [A O]. split.
      * unfold awaits_once. cbn [waiting]. now apply Forall_remove_nth.
      * cbn [stdout]. apply Forall_app. split; [exact O | now repeat constructor].
    + unfold step. now rewrite X, N.
  - unfold step. rewrite X. exact S.
Qed.

Lemma run_sound (turns : list turn) :
  forall s, sound rt s -> sound rt (run rt s turns).
Proof.
  induction turns as [|t rest IH]; intros s S; [exact S|].
  change (run rt s (t :: rest)) with (run rt (step rt s t) rest).
  apply IH. now apply step_sound.
Qed.

Lemma init_sound : sound rt init.
Proof. split; constructor. Qed.

Lemma run_exited (turns : list turn) :
  forall s code, exited s = Some code -> run rt s turns = s.
Proof.
  induction turns as [|t rest IH]; intros s code X; [reflexivity|].
  change (run rt s (t :: rest)) with (run rt (step rt s t) rest).
  rewrite (step_exited s t code X). now apply (IH s code).
Qed.

(** *** What a turn writes *)

Lemma continue_writes (id : nat) (p : async value) (s : server) :
  exists new,
    stdout (continue id p s) = stdout s ++ new /\
    Forall (fun w => fst w = id) new.
Proof.
  destruct p as [response|error|c k]; cbn [continue write suspend stdout].
  - eexists. split; [reflexivity | now repeat constructor].
  - eexists. split; [reflexivity | now repeat constructor].
  - exists []. now rewrite app_nil_r.
Qed.

Lemma on_line_writes (s : server) (jobs : list (nat * async value)) (line : string) :
  let st := on_line rt (s, jobs) line in
  exists new added,
    stdout (fst st) = stdout s ++ new /\
    snd st = jobs ++ added /\
    Forall (fun w => fst w = received s) new /\
    Forall (fun job => fst job = received s) added.
Proof.
  unfold on_line. destruct (JSON_parse rt line) as [request|error].
  - destruct (handleRequest rt request) as [response|error|c k];
      cbn [fst snd count_line suspend stdout].
    + exists [], [(received s, Return response)].
      rewrite app_nil_r. now repeat constructor.
    + exists [], [(received s, Raise error)].
      rewrite app_nil_r. now repeat constructor.
    + exists [], []. rewrite !app_nil_r. now repeat constructor.
  - cbn [fst snd count_line write stdout].
    exists [(received s, sendError error)], [].
    rewrite app_nil_r. now repeat constructor.
Qed.

Lemma lines_writes (lines : list string) :
  forall s jobs,
    let st := fold_left (on_line rt) lines (s, jobs) in
    let sent id := received s <= id < received s + List.length lines in
    exists new added,
      stdout (fst st) = stdout s ++ new /\
      snd st = jobs ++ added /\
      Forall (fun w => sent (fst w)) new /\
      Forall (fun job => sent (fst job)) added.
Proof.
  induction lines as [|line rest IH]; intros s jobs; cbn [fold_left].
  - exists [], []. cbn [fst snd]. rewrite !app_nil_r. now repeat constructor.
  - destruct (on_line_writes s jobs line) as (new1 & added1 & O1 & J1 & W1 & A1).
    destruct (on_line_facts s jobs line) as (R & _).
    destruct (on_line rt (s, jobs) line) as [s1 jobs1]. cbn [fst snd] in *.
    destruct (IH s1 jobs1) as (new2 & added2 & O2 & J2 & W2 & A2).
    exists (new1 ++ new2), (added1 ++ added2). cbn zeta in *.
    rewrite O2, O1, J2, J1, !app_assoc. split; [reflexivity|].
    split; [reflexivity|]. rewrite R in W2, A2. cbn [List.length].
    split; apply Forall_app; split;
      (eapply Forall_impl; [|eassumption]); cbn beta; intros; lia.
Qed.

Lemma drain_writes (P : nat -> Prop) (jobs : list (nat * async value)) :
  forall s,
    Forall (fun job => P (fst job)) jobs ->
    exists new,
      stdout (drain (s, jobs)) = stdout s ++ new /\
      Forall (fun w => P (fst w)) new.
Proof.
  unfold drain. cbn [fst snd].
  induction jobs as [|[id p] rest IH]; intros s J; cbn [fold_left fst snd].
  - exists []. now rewrite app_nil_r.
  - inversion J as [|? ? Hid J']; subst. cbn [fst] in Hid.
    destruct (continue_writes id p s) as (new1 & O1 & W1).
    destruct (IH (continue id p s) J') as (new2 & O2 & W2).
    exists (new1 ++ new2). rewrite O2, O1, app_assoc. split; [reflexivity|].
    apply Forall_app. split; [|exact W2].
    eapply Forall_impl; [|exact W1]. cbn beta. now intros w ->.
Qed.

(** Every turn appends to stdout: a settlement the one response to the
    request whose call settled, a chunk only responses to its own lines. *)
Lemma step_writes (s : server) (t : turn) :
  sound rt s -> exited s = None ->
  exists new, stdout (step rt s t) = stdout s ++ new /\ written_by s t new.
Proof.
  intros S X. destruct t as [lines|i o|]; cbn [written_by].
  - unfold step. rewrite X.
    destruct (lines_writes lines s []) as (new1 & added & O1 & J1 & W1 & A1).
    destruct (fold_left (on_line rt) lines (s, [])) as [s1 jobs1].
    cbn [fst snd app] in *. subst jobs1.
    destruct (drain_writes
                (fun id => received s <= id < received s + List.length lines)
                added s1 A1) as (new2 & O2 & W2).
    exists (new1 ++ new2). rewrite O2, O1, app_assoc. split; [reflexivity|].
    apply Forall_app. now split.
  - destruct (nth_error (waiting s) i) as [task|] eqn:N.
    + destruct (settle_sound s i o task S X N) as (text & R & ->).
      cbn [stdout]. eexists. split; [reflexivity|]. now exists text.
    + exists []. unfold step. rewrite X, N, app_nil_r. now split.
  - exists []. unfold step. rewrite X. cbn [stdout]. now rewrite app_nil_r.
Qed.

Lemma run_appends (turns : list turn) :
  forall s, sound rt s -> exists later, stdout (run rt s turns) = stdout s ++ later.
Proof.
  induction turns as [|t rest IH]; intros s S.
  - exists []. cbn. now rewrite app_nil_r.
  - change (run rt s (t :: rest)) with (run rt (step rt s t) rest).
    destruct (IH (step rt s t) (step_sound s t S)) as [later E].
    destruct (exited s) as [code|] eqn:X.
    + rewrite (step_exited s t code X) in *. eauto.
    + destruct (step_writes s t S X) as (new & O & _).
      exists (new ++ later). now rewrite E, O, app_assoc.
Qed.

(** C1, as the code has it.  Take any schedule of stdin chunks and
    promise settlements that leaves the server running with no call
    pending.  Then stdout holds exactly one write per request line, each of
    them one line, and the writes are a rearrangement of the requests, in
    the order in which their handling completed: what a turn of the
    schedule writes stands on stdout after everything written in earlier
    turns and before everything written in later ones; the settlement of a
    call writes the one response to the request the call was issued for,
    and a chunk writes only responses to lines of its own.  When the host
    is serial (one line at a time, sent only when no earlier request is
    being served) the i-th write answers the i-th request. *)
Theorem responses_follow_completion (turns : list turn) :
  let s := run rt init turns in
  exited s = None ->
  waiting s = [] ->
  List.length (stdout s) = List.length (lines_of turns) /\
  tidy s /\
  Permutation (map fst (stdout s)) (seq 0 (List.length (lines_of turns))) /\
  (forall before t after,
     turns = before ++ t :: after ->
     let s0 := run rt init before in
     exists new later,
       stdout (step rt s0 t) = stdout s0 ++ new /\
       stdout s = stdout s0 ++ new ++ later /\
       written_by s0 t new) /\
  (serial rt init turns = true ->
   map fst (stdout s) = seq 0 (List.length (lines_of turns))).
Proof.
  intros s X W. destruct (run_facts turns init) as (T & A & R). fold s in T, A, R.
  specialize (R X). cbn [received init] in R. cbn [Nat.add] in R.
  assert (P : Permutation (map fst (stdout s)) (seq 0 (List.length (lines_of turns)))).
  { rewrite <- R. unfold accounted, ids in A. rewrite W in A. cbn [map] in A.
    rewrite !app_nil_r in A. apply A. apply Permutation_refl. }
  repeat split.
  - apply Permutation_length in P. now rewrite length_map, length_seq in P.
  - apply T. constructor.
  - exact P.
  - intros before t after E s0.
    assert (Es : s = run rt (step rt s0 t) after).
    { unfold s, s0, run. now rewrite E, fold_left_app. }
    assert (S0 : sound rt s0) by apply run_sound, init_sound.
    assert (X0 : exited s0 = None).
    { destruct (exited s0) as [code|] eqn:X0; [|reflexivity].
      rewrite Es, (step_exited s0 t code X0), (run_exited after s0 code X0) in X.
      congruence. }
    destruct (step_writes s0 t S0 X0) as (new & O & Wr).
    destruct (run_appends after (step rt s0 t) (step_sound s0 t S0)) as [later L].
    exists new, later. split; [exact O|]. split; [|exact Wr].
    now rewrite Es, L, O, app_assoc.
  - intros S. destruct (run_in_order turns init) as [I _];
      [split; [reflexivity | cbn; lia] | exact S|].
    fold s in I. unfold ids in I. rewrite W in I. cbn [map] in I.
    rewrite app_nil_r in I. now rewrite I, R.
Qed.

(** *** One line of a chunk *)

Lemma effect_grows (id : nat) (p : async value) (s s' : server) :
  incl (stdout s) (stdout s') -> incl (waiting s) (waiting s') ->
  effect id p s -> effect id p s'.
Proof. intros Ho Hw. destruct p; cbn [effect]; auto. Qed.

Lemma continue_grows (id : nat) (p : async value) (s : server) :
  incl (stdout s) (stdout (continue id p s)) /\
  incl (waiting s) (waiting (continue id p s)) /\
  effect id p (continue id p s).
Proof.
  destruct p; cbn [continue write suspend effect stdout waiting];
    repeat split; auto using incl_refl, incl_appl, in_or_app, in_eq.
Qed.

Lemma on_line_grows (s : server) (jobs : list (nat * async value)) (line : string) :
  let st := on_line rt (s, jobs) line in
  incl (stdout s) (stdout (fst st)) /\
  incl (waiting s) (waiting (fst st)) /\
  incl jobs (snd st) /\
  (effect (received s) (listener rt line) (fst st) \/
   In (received s, listener rt line) (snd st)).
Proof.
  unfold on_line, listener. destruct (JSON_parse rt line) as [request|error].
  - destruct (handleRequest rt request);
      cbn [fst snd count_line write suspend effect stdout waiting];
      repeat split; auto using incl_refl, incl_appl, in_or_app, in_eq.
  - cbn [fst snd count_line write suspend effect stdout waiting].
    repeat split; auto using incl_refl, incl_appl, in_or_app, in_eq.
Qed.

Lemma lines_grow (lines : list string) :
  forall s jobs,
    let st := fold_left (on_line rt) lines (s, jobs) in
    incl (stdout s) (stdout (fst st)) /\
    incl (waiting s) (waiting (fst st)) /\
    incl jobs (snd st).
Proof.
  induction lines as [|line rest IH]; intros s jobs; cbn [fold_left].
  - cbn. auto using incl_refl.
  - destruct (on_line_grows s jobs line) as (Ho & Hw & Hj & _).
    destruct (on_line rt (s, jobs) line) as [s1 jobs1]. cbn [fst snd] in *.
    destruct (IH s1 jobs1) as (Ho' & Hw' & Hj').
    repeat split; eapply incl_tran; eauto.
Qed.

Lemma drain_grows (jobs : list (nat * async value)) :
  forall s id p,
    effect id p s \/ In (id, p) jobs -> effect id p (drain (s, jobs)).
Proof.
  unfold drain. cbn [fst snd].
  induction jobs as [|[id' p'] rest IH]; intros s id p H; cbn [fold_left fst snd].
  - destruct H as [H|[]]. exact H.
  - destruct (continue_grows id' p' s) as (Ho & Hw & He).
    apply IH. destruct H as [H|[H|H]].
    + left. eapply effect_grows; eauto.
    + injection H as -> ->. now left.
    + now right.
Qed.

(** The line at any position of a chunk leaves its trace by the end of
    the turn. *)
Lemma chunk_effect (s : server) (before after : list string) (line : string) :
  exited s = None ->
  let s' := step rt s (Chunk (before ++ line :: after)) in
  exited s' = None /\
  effect (received s + List.length before) (listener rt line) s'.
Proof.
  intros X. unfold step. rewrite X. rewrite fold_left_app. cbn [fold_left].
  destruct (lines_facts before s []) as (R & X1 & _).
  destruct (fold_left (on_line rt) before (s, [])) as [s1 jobs1].
  cbn [fst snd] in *.
  destruct (on_line_grows s1 jobs1 line) as (_ & _ & _ & E).
  destruct (on_line_facts s1 jobs1 line) as (_ & X2 & _).
  destruct (on_line rt (s1, jobs1) line) as [s2 jobs2]. cbn [fst snd] in *.
  destruct (lines_grow after s2 jobs2) as (Ho & Hw & Hj).
  destruct (lines_facts after s2 jobs2) as (_ & X3 & _).
  destruct (fold_left (on_line rt) after (s2, jobs2)) as [s3 jobs3].
  cbn [fst snd] in *.
  destruct (drain_facts jobs3 s3) as (_ & X4 & _).
  split; [congruence|]. rewrite <- R. apply drain_grows.
  destruct E as [E|E]; [left; eapply effect_grows; eauto | right; auto].
Qed.

Lemma accounted_NoDup (s : server) : accounted s [] -> NoDup (ids s).
Proof.
  unfold accounted. rewrite app_nil_r. intros P.
  apply (Permutation_NoDup (Permutation_sym P)), seq_NoDup.
Qed.

Lemma unique_write (out : list (nat * string)) (n : nat) (text : string) :
  NoDup (map fst out) -> In (n, text) out ->
  filter (fun w => Nat.eqb (fst w) n) out = [(n, text)].
Proof.
  induction out as [|[m t] out IH]; intros ND H; [destruct H|].
  cbn [map fst] in ND. inversion ND as [|? ? Hm ND']; subst.
  cbn [filter fst]. destruct H as [H|H].
  - injection H as -> ->. rewrite Nat.eqb_refl. f_equal.
    clear IH ND ND'. induction out as [|[m t'] out IH]; [reflexivity|].
    cbn [filter fst]. destruct (Nat.eqb_spec m n) as [->|_].
    + exfalso. apply Hm. now left.
    + apply IH. intros H. apply Hm. now right.
  - destruct (Nat.eqb_spec m n) as [->|_].
    + exfalso. apply Hm. change n with (fst (n, text)). now apply in_map.
    + now apply IH.
Qed.

Lemma absent_write (out : list (nat * string)) (n : nat) :
  ~ In n (map fst out) -> filter (fun w => Nat.eqb (fst w) n) out = [].
Proof.
  induction out as [|[m t] out IH]; intros H; [reflexivity|].
  cbn [filter fst]. destruct (Nat.eqb_spec m n) as [->|_].
  - exfalso. apply H. now left.
  - apply IH. intros H'. apply H. now right.
Qed.

Lemma NoDup_app_disjoint {A : Type} (l1 l2 : list A) :
  NoDup (l1 ++ l2) -> forall a, In a l1 -> ~ In a l2.
Proof.
  induction l1 as [|x l1 IH]; cbn [app]; intros ND a H; [destruct H|].
  inversion ND as [|? ? Hx ND']; subst. destruct H as [->|H].
  - intros H2. apply Hx, in_or_app. now right.
  - now apply IH.
Qed.

(** A write tagged [n] excludes a task tagged [n], and conversely. *)
Lemma written_once (s : server) (n : nat) (text : string) :
  accounted s [] -> In (n, text) (stdout s) ->
  writes_of n s = [(n, text)] /\ Forall (fun t => tid t <> n) (waiting s).
Proof.
  intros A H. apply accounted_NoDup in A. unfold ids in A. split.
  - apply unique_write; [|exact H]. now apply NoDup_app_remove_r in A.
  - apply Forall_forall. intros t Ht E.
    apply (NoDup_app_disjoint _ _ A n).
    + change n with (fst (n, text)). now apply in_map.
    + rewrite <- E. now apply in_map.
Qed.

Lemma suspended_once (s : server) (t : task) :
  accounted s [] -> In t (waiting s) ->
  writes_of (tid t) s = [] /\
  (forall t', In t' (waiting s) -> tid t' = tid t -> t' = t).
Proof.
  intros A H. apply accounted_NoDup in A. unfold ids in A. split.
  - apply absent_write. intros Hin.
    apply (NoDup_app_disjoint _ _ A (tid t)); [exact Hin | now apply in_map].
  - apply NoDup_app_remove_l in A. intros t' H' E.
    destruct (In_nth_error _ _ H) as [i Hi]. destruct (In_nth_error _ _ H') as [j Hj].
    assert (i = j).
    { apply (proj1 (NoDup_nth_error (map tid (waiting s))) A).
      - rewrite length_map. apply nth_error_Some. congruence.
      - rewrite !nth_error_map, Hi, Hj. cbn [option_map]. now rewrite E. }
    subst j. congruence.
Qed.

(** C3.  Let the running server, in any state it can reach, receive a
    chunk; take a line at any position of it that [JSON.parse] rejects, or
    that parses to a request whose [type] is none of the three served ones.
    By the end of the turn the server has written exactly one line for it,
    the serialisation of [{ success: false, error: <message>, stack: <stack> }]
    with string fields; no handler stays suspended for it, and the server is
    still running.  When the line is a chunk of its own, this write is all
    that changes: pending work is untouched, and the next line is handled
    as any other. *)
Theorem bad_line_reported (turns : list turn) (before after : list string)
        (line : string) :
  let s := run rt init turns in
  let n := received s + List.length before in
  let s' := step rt s (Chunk (before ++ line :: after)) in
  exited s = None ->
  (exists error, JSON_parse rt line = inr error) \/
  (exists request, JSON_parse rt line = inl request /\
                   served (field request "type") = false) ->
  exists error body,
    JSON_stringify (VObj [("success", VBool false);
                          ("error", VStr (message error));
                          ("stack", VStr (stack error))]) = Some body /\
    exited s' = None /\
    writes_of n s' = [(n, console_log body)] /\
    Forall (fun t => tid t <> n) (waiting s') /\
    (before = [] -> after = [] ->
     s' = {| waiting := waiting s;
             stdout := stdout s ++ [(n, console_log body)];
             received := S (received s);
             exited := None |}).
Proof.
  intros s n s' X H.
  assert (L : exists error, listener rt line = Raise error).
  { unfold listener. destruct H as [[error ->]|(request & -> & U)]; [eauto|].
    apply (handleRequest_unserved request U). }
  destruct L as [error L]. exists error. eexists. split; [reflexivity|].
  destruct (chunk_effect s before after line X) as [X' E]. fold s' n in X', E.
  rewrite L in E. cbn [effect] in E.
  assert (A : accounted s' []).
  { apply step_facts. apply run_facts. unfold accounted. cbn. constructor. }
  destruct (written_once s' n _ A E) as [W1 W2].
  split; [exact X'|]. split; [exact W1|]. split; [exact W2|].
  intros -> ->. unfold s', n, step. rewrite X. cbn [app fold_left List.length].
  rewrite Nat.add_0_r. unfold listener in L. unfold on_line.
  destruct (JSON_parse rt line) as [request|error'].
  - rewrite L. unfold drain, continue, write, count_line.
    cbn [fst snd fold_left app waiting stdout received exited]. now rewrite X.
  - injection L as ->. unfold drain, write, count_line.
    cbn [fst snd fold_left waiting stdout received exited]. now rewrite X.
Qed.

(** C4.  Let the running server, in any state it can reach, receive a
    chunk, and take a line at any position of it that carries a
    [chat_completion], [list_models] or [list_providers] request.  The
    server issues the matching library call and, by the end of the turn,
    holds one suspended handler for the line and has written nothing for it
    yet.  Whenever that call later resolves with plain [data], the server
    writes one line for the request, the text that [JSON.stringify] gives
    for [{ success: true, data }]; whenever it is rejected with an error
    whose [message] is a plain [msg], the server writes the text that
    [JSON.stringify] gives for [{ success: false, error: msg }].  Either way
    the server keeps running and the other suspended handlers are
    untouched.  Data is plain when no object in it has a [toJSON] method;
    numbers in it are integers.  A result that [JSON.stringify] refuses (a
    cyclic structure, a [BigInt]) is not a value of the embedding. *)
Theorem provider_outcome_reported (turns : list turn) (before after : list string)
        (line : string) (request : value) :
  let s := run rt init turns in
  let n := received s + List.length before in
  let s' := step rt s (Chunk (before ++ line :: after)) in
  exited s = None ->
  JSON_parse rt line = inl request ->
  served (field request "type") = true ->
  exists c,
    let t := {| tid := n; call := c; resume := settled rt |} in
    dispatched request c /\
    exited s' = None /\
    In t (waiting s') /\
    (forall t', In t' (waiting s') -> tid t' = n -> t' = t) /\
    writes_of n s' = [] /\
    forall s'' i,
      exited s'' = None ->
      nth_error (waiting s'') i = Some t ->
      (forall data,
         plain data = true ->
         exists body,
           JSON_stringify (success data) = Some body /\
           step rt s'' (Settle i (Resolved data))
           = {| waiting := remove_nth i (waiting s'');
                stdout := stdout s'' ++ [(n, console_log body)];
                received := received s''; exited := None |}) /\
      (forall error msg,
         get error "message" = Some msg ->
         plain msg = true ->
         exists body,
           JSON_stringify (failure msg) = Some body /\
           step rt s'' (Settle i (Rejected error))
           = {| waiting := remove_nth i (waiting s'');
                stdout := stdout s'' ++ [(n, console_log body)];
                received := received s''; exited := None |}).
Proof.
  intros s n s' X E H. destruct (handleRequest_served request H) as (c & Hc & D).
  exists c. intros t. split; [exact D|].
  destruct (chunk_effect s before after line X) as [X' F]. fold s' n in X', F.
  unfold listener in F. rewrite E, Hc in F. cbn [effect] in F. fold t in F.
  assert (A : accounted s' []).
  { apply step_facts. apply run_facts. unfold accounted. cbn. constructor. }
  destruct (suspended_once s' t A F) as [W U].
  split; [exact X'|]. split; [exact F|]. split; [exact U|]. split; [exact W|].
  intros s'' i X'' N. split.
  - intros data _. eexists. split; [reflexivity|]. unfold step. rewrite X'', N.
    cbn [resume tid settled continue t]. unfold write.
    cbn [waiting stdout received exited]. reflexivity.
  - intros error msg M _. eexists. split; [reflexivity|].
    unfold step. rewrite X'', N.
    cbn [resume tid settled continue t]. rewrite M. cbn [continue]. unfold write.
    cbn [waiting stdout received exited]. reflexivity.
Qed.

(** C10.  Whatever is passed to [sendResponse] or [sendError], the text
    written is the serialisation, free of line feeds and carriage returns,
    followed by exactly one line feed; hence every write of every run of
    the server is exactly one line. *)
Theorem every_write_is_one_line (turns : list turn) :
  (forall response, one_line (sendResponse response)) /\
  (forall error, one_line (sendError error)) /\
  tidy (run rt init turns).
Proof.
  split; [exact sendResponse_one_line|]. split; [exact sendError_one_line|].
  apply run_facts. constructor.
Qed.

End EventLoop.

(** ** The event loop on the example schedules *)

Lemma responses_follow_completion_witness :
  let s := run example_runtime init serial_schedule in
  exited s = None /\
  waiting s = [] /\
  List.length (stdout s) = List.length (lines_of serial_schedule) /\
  tidy s /\
  Permutation (map fst (stdout s)) (seq 0 (List.length (lines_of serial_schedule))) /\
  (forall before t after,
     serial_schedule = before ++ t :: after ->
     let s0 := run example_runtime init before in
     exists new later,
       stdout (step example_runtime s0 t) = stdout s0 ++ new /\
       stdout s = stdout s0 ++ new ++ later /\
       written_by s0 t new) /\
  (serial example_runtime init serial_schedule = true ->
   map fst (stdout s) = seq 0 (List.length (lines_of serial_schedule))).
Proof.
  split; [reflexivity|]. split; [reflexivity|].
  apply (responses_follow_completion example_runtime serial_schedule);
    reflexivity.
Defined.

(** C1 as stated fails: two request lines, the second arriving while
    the call of the first is pending and its own call settling first.  Both
    are answered, but the first line on stdout is the answer to the second
    request. *)
Lemma responses_out_of_request_order :
  let s := run example_runtime init overlapping_schedule in
  lines_of overlapping_schedule = [line_of chat_request; line_of list_request] /\
  exited s = None /\
  waiting s = [] /\
  stdout s = [(1, sendResponse (success providers_listed));
              (0, sendResponse (failure (VStr "provider not found")))] /\
  map fst (stdout s) <> seq 0 (List.length (lines_of overlapping_schedule)).
Proof. vm_compute. repeat split. discriminate. Qed.

Lemma bad_line_reported_witness :
  (* a rejected line, alone in its chunk *)
  (let s := run example_runtime init [] in
   let s' := step example_runtime s (Chunk ([] ++ "{oops" :: [])) in
   exists error body,
     JSON_stringify (VObj [("success", VBool false);
                           ("error", VStr (message error));
                           ("stack", VStr (stack error))]) = Some body /\
     exited s' = None /\
     writes_of 0 s' = [(0, console_log body)] /\
     Forall (fun t => tid t <> 0) (waiting s') /\
     (@nil string = [] -> @nil string = [] ->
      s' = {| waiting := waiting s;
              stdout := stdout s ++ [(0, console_log body)];
              received := S (received s);
              exited := None |})) /\
  (* an unserved type, in the middle of a chunk, with a call pending *)
  (let s := run example_runtime init [Chunk [line_of chat_request]] in
   let s' := step example_runtime s
               (Chunk ([line_of list_request]
                         ++ line_of odd_request :: [line_of list_request])) in
   exists error body,
     JSON_stringify (VObj [("success", VBool false);
                           ("error", VStr (message error));
                           ("stack", VStr (stack error))]) = Some body /\
     exited s' = None /\
     writes_of 2 s' = [(2, console_log body)] /\
     Forall (fun t => tid t <> 2) (waiting s') /\
     ([line_of list_request] = [] -> [line_of list_request] = [] ->
      s' = {| waiting := waiting s;
              stdout := stdout s ++ [(2, console_log body)];
              received := S (received s);
              exited := None |})).
Proof.
  split.
  - apply (bad_line_reported example_runtime [] [] [] "{oops"); [reflexivity|].
    left. eexists. reflexivity.
  - apply (bad_line_reported example_runtime [Chunk [line_of chat_request]]
             [line_of list_request] [line_of list_request] (line_of odd_request));
      [reflexivity|].
    right. exists odd_request. split; reflexivity.
Defined.

Lemma provider_outcome_reported_witness :
  let s' := step example_runtime init (Chunk ([] ++ line_of chat_request :: [])) in
  exists c,
    let t := {| tid := 0; call := c; resume := settled example_runtime |} in
    dispatched chat_request c /\
    exited s' = None /\
    In t (waiting s') /\
    (forall t', In t' (waiting s') -> tid t' = 0 -> t' = t) /\
    writes_of 0 s' = [] /\
    forall s'' i,
      exited s'' = None ->
      nth_error (waiting s'') i = Some t ->
      (forall data,
         plain data = true ->
         exists body,
           JSON_stringify (success data) = Some body /\
           step example_runtime s'' (Settle i (Resolved data))
           = {| waiting := remove_nth i (waiting s'');
                stdout := stdout s'' ++ [(0, console_log body)];
                received := received s''; exited := None |}) /\
      (forall error msg,
         get error "message" = Some msg ->
         plain msg = true ->
         exists body,
           JSON_stringify (failure msg) = Some body /\
           step example_runtime s'' (Settle i (Rejected error))
           = {| waiting := remove_nth i (waiting s'');
                stdout := stdout s'' ++ [(0, console_log body)];
                received := received s''; exited := None |}).
Proof.
  apply (provider_outcome_reported example_runtime [] [] []
           (line_of chat_request) chat_request); reflexivity.
Defined.

(** The two end-to-end exchanges of the protocol, on the serial schedule. *)
Example serial_exchange :
  stdout (run example_runtime init serial_schedule)
  = [(0, sendResponse (failure (VStr "provider not found")));
     (1, sendResponse (success providers_listed))].
Proof. reflexivity. Qed.

Example list_providers_text :
  sendResponse (success providers_listed)
  = ("{" ++ DQ ++ "success" ++ DQ ++ ":true," ++ DQ ++ "data" ++ DQ ++ ":["
         ++ DQ ++ "openai" ++ DQ ++ "," ++ DQ ++ "anthropic" ++ DQ ++ "]}"
         ++ LF)%string.
Proof. reflexivity. Qed.

(** ** More of the registry *)

Lemma assoc_unique (l : list (string * value)) (k : string) (v : value) :
  NoDup (map fst l) -> In (k, v) l -> assoc k l = Some v.
Proof.
  induction l as [|[k' v'] l IH]; cbn [map fst assoc]; intros ND H; [destruct H|].
  inversion ND as [|? ? Hk ND']; subst. destruct H as [H|H].
  - injection H as -> ->. now rewrite String.eqb_refl.
  - destruct (String.eqb_spec k k') as [->|_]; [|now apply IH].
    exfalso. apply Hk. change k' with (fst (k', v)). now apply in_map.
Qed.

Lemma isLMIProvider_prefixed (k : string) : isLMIProvider ("lmi_" ++ k) = true.
Proof. unfold isLMIProvider, startsWith. apply prefix_app. Qed.

Lemma getCleanProviderId_prefixed (k : string) : getCleanProviderId ("lmi_" ++ k) = k.
Proof.
  unfold getCleanProviderId. rewrite isLMIProvider_prefixed.
  apply (replace_prefixed "lmi_" k EmptyString).
Qed.

(** X1.  Whatever the entries of the catalog object are, [listProviderIds]
    returns one id per entry, in catalog order; every id passes
    [isLMIProvider], and [getCleanProviderId] gives back the catalog key it
    was made from. *)
Theorem listProviderIds_round_trip (entries : list (string * value)) :
  exists ids,
    listProviderIds (catalog entries) = Some ids /\
    List.length ids = List.length entries /\
    Forall (fun id => isLMIProvider id = true) ids /\
    map getCleanProviderId ids = map fst entries.
Proof.
  exists (map (fun kv => ("lmi_" ++ fst kv)%string) entries).
  split; [reflexivity|]. split; [apply length_map|]. split.
  - apply Forall_map, Forall_forall. intros kv _. apply isLMIProvider_prefixed.
  - rewrite map_map. apply map_ext. intros kv. apply getCleanProviderId_prefixed.
Qed.

Lemma derived_origin (entries configs : list (string * value)) :
  Forall2 derived entries configs ->
  forall id config,
    In (id, config) configs ->
    exists k entry,
      In (k, entry) entries /\ id = ("lmi_" ++ k)%string /\
      convertToRustFormat k entry = Some config.
Proof.
  induction 1 as [|[k e] [id0 c0] entries configs [Hid Hc] _ IH];
    intros id config H; [destruct H|].
  cbn [fst snd] in Hid, Hc. destruct H as [H|H].
  - injection H as -> ->. exists k, e. repeat split; trivial. now left.
  - destruct (IH _ _ H) as (k' & e' & Hin & E1 & E2).
    exists k', e'. repeat split; trivial. now right.
Qed.

(** X2.  Over a catalog (unique keys, every entry provider metadata) the
    ids that [listProviderIds] returns are the keys of the mapping that
    [getAllProviders] returns, in the same order, and [getProvider]
    resolves each of them to the configuration filed under it. *)
Theorem listed_ids_resolve (entries : list (string * value)) :
  well_formed entries ->
  exists ids configs,
    listProviderIds (catalog entries) = Some ids /\
    getAllProviders (catalog entries) = Some configs /\
    ids = map fst configs /\
    forall id config,
      In (id, config) configs -> getProvider (catalog entries) id = Some config.
Proof.
  intros WF. destruct (getAllProviders_spec entries WF) as (configs & E & F).
  exists (map (fun kv => ("lmi_" ++ fst kv)%string) entries), configs.
  split; [reflexivity|]. split; [exact E|]. split.
  - symmetry. apply (derived_ids _ _ F).
  - intros id config H.
    destruct (derived_origin _ _ F _ _ H) as (k & entry & Hin & -> & Hc).
    destruct WF as [ND M]. rewrite Forall_forall in M.
    rewrite getProvider_prefixed, (get_own _ _ _ (assoc_unique _ _ _ ND Hin)).
    cbn [bind]. pose proof (metadata_truthy entry (M _ Hin)) as T.
    now rewrite T.
Qed.

Lemma listed_ids_resolve_witness :
  well_formed example_entries /\
  exists ids configs,
    listProviderIds (catalog example_entries) = Some ids /\
    getAllProviders (catalog example_entries) = Some configs /\
    ids = map fst configs /\
    forall id config,
      In (id, config) configs ->
      getProvider (catalog example_entries) id = Some config.
Proof.
  split.
  - exact example_entries_well_formed.
  - apply (listed_ids_resolve example_entries). exact example_entries_well_formed.
Defined.

Lemma wrong_shape_throws (lmiProviders : value) :
  match get lmiProviders "providers" with
  | Some providers => nullish providers = true
  | None => True
  end ->
  getAllProviders lmiProviders = None /\
  listProviderIds lmiProviders = None /\
  generateTOMLConfig lmiProviders = None /\
  (forall id, getProvider lmiProviders id = None).
Proof.
  intros H. unfold generateTOMLConfig, getAllProviders, listProviderIds, getProvider.
  destruct (get lmiProviders "providers") as [[]|]; try discriminate H;
    repeat split.
Qed.

(** X3.  The fallback of [loadLMIProviders] covers a file that cannot be
    read or parsed, not one that parses to the wrong shape.  When the
    catalog file is valid JSON without a [providers] object (the value is
    [null], or has no such property, or the property is [null]), the
    registry keeps the parsed value, and [getAllProviders],
    [listProviderIds], [generateTOMLConfig] and [getProvider] all throw. *)
Theorem registry_wrong_shape (rt : Runtime) (data : string) (parsed : value) :
  JSON_parse rt data = inl parsed ->
  match get parsed "providers" with
  | Some providers => nullish providers = true
  | None => True
  end ->
  let lmiProviders := loadLMIProviders rt (Some data) in
  lmiProviders = parsed /\
  getAllProviders lmiProviders = None /\
  listProviderIds lmiProviders = None /\
  generateTOMLConfig lmiProviders = None /\
  (forall id, getProvider lmiProviders id = None).
Proof.
  intros P H lmiProviders.
  assert (E : lmiProviders = parsed).
  { unfold lmiProviders, loadLMIProviders. now rewrite P. }
  rewrite E. split; [reflexivity|]. now apply wrong_shape_throws.
Qed.

Lemma registry_wrong_shape_witness :
  let rt := sample_runtime [VObj [("version", VNum 1)]] in
  let lmiProviders := loadLMIProviders rt (Some (line_of (VObj [("version", VNum 1)]))) in
  lmiProviders = VObj [("version", VNum 1)] /\
  getAllProviders lmiProviders = None /\
  listProviderIds lmiProviders = None /\
  generateTOMLConfig lmiProviders = None /\
  (forall id, getProvider lmiProviders id = None).
Proof.
  apply (registry_wrong_shape (sample_runtime [VObj [("version", VNum 1)]])
           (line_of (VObj [("version", VNum 1)])) (VObj [("version", VNum 1)]));
    reflexivity.
Defined.

Lemma getAllProviders_loop_null (entries : list (string * value)) (k : string) :
  In (k, VNull) entries ->
  forall providers, getAllProviders_loop entries providers = None.
Proof.
  induction entries as [|[k0 e0] rest IH]; intros H providers; [destruct H|].
  cbn [getAllProviders_loop]. destruct H as [H|H].
  - now injection H as -> ->.
  - destruct (convertToRustFormat k0 e0); [cbn [bind]; now apply IH | reflexivity].
Qed.

(** X4.  A [null] entry in the catalog: its key is still listed by
    [listProviderIds], [getProvider] answers [null] for it, but
    [getAllProviders] and [generateTOMLConfig] throw, and [addToConfig]
    then ends with exit code 1 and leaves the configuration file as it
    was, whatever the file holds. *)
Theorem null_entry_breaks_derivation (entries : list (string * value)) (k : string) :
  NoDup (map fst entries) ->
  In (k, VNull) entries ->
  (exists ids, listProviderIds (catalog entries) = Some ids /\
               In ("lmi_" ++ k)%string ids) /\
  getProvider (catalog entries) ("lmi_" ++ k) = Some VNull /\
  getAllProviders (catalog entries) = None /\
  generateTOMLConfig (catalog entries) = None /\
  (forall config,
     LMICLI.addToConfig (catalog entries) config = (LMICLI.Exit 1, config)).
Proof.
  intros ND H.
  assert (A : getAllProviders (catalog entries) = None).
  { unfold getAllProviders. rewrite get_catalog. cbn [bind Object_entries].
    now apply (getAllProviders_loop_null entries k). }
  assert (G : generateTOMLConfig (catalog entries) = None).
  { unfold generateTOMLConfig. now rewrite A. }
  split; [|split; [|split; [exact A|split; [exact G|]]]].
  - eexists. split; [reflexivity|].
    change ("lmi_" ++ k)%string
      with ((fun kv : string * value => ("lmi_" ++ fst kv)%string) (k, VNull)).
    now apply in_map.
  - rewrite getProvider_prefixed, (get_own _ _ _ (assoc_unique _ _ _ ND H)).
    reflexivity.
  - intros [| |existing writable]; try reflexivity.
    unfold LMICLI.addToConfig. now rewrite G.
Qed.

Lemma null_entry_breaks_derivation_witness :
  let entries := [("openai", openai_entry); ("draft", VNull)] in
  (exists ids, listProviderIds (catalog entries) = Some ids /\
               In "lmi_draft" ids) /\
  getProvider (catalog entries) "lmi_draft" = Some VNull /\
  getAllProviders (catalog entries) = None /\
  generateTOMLConfig (catalog entries) = None /\
  (forall config,
     LMICLI.addToConfig (catalog entries) config = (LMICLI.Exit 1, config)).
Proof.
  apply (null_entry_breaks_derivation
           [("openai", openai_entry); ("draft", VNull)] "draft").
  - repeat constructor; cbn; intuition discriminate.
  - right. now left.
Defined.

(** ** More of the emitter *)

Lemma append_nil_r (s : string) : (s ++ EmptyString)%string = s.
Proof. induction s; cbn; [reflexivity | now f_equal]. Qed.

Lemma includes_self (s : string) : includes s s = true.
Proof. rewrite <- (append_nil_r s) at 1. apply includes_here. Qed.

Lemma extends_prefix (a b : string) : extends a b -> String.prefix a b = true.
Proof. intros [rest ->]. apply prefix_app. Qed.

Lemma generateTOMLConfig_loop_headers (providers : list (string * value)) :
  forall toml rendered,
    generateTOMLConfig_loop providers toml = Some rendered ->
    forall id provider,
      In (id, provider) providers ->
      includes rendered ("[model_providers." ++ id ++ "]" ++ LF) = true.
Proof.
  induction providers as [|[id0 p0] rest IH]; intros toml rendered H id provider Hin;
    [destruct Hin|].
  cbn [generateTOMLConfig_loop] in H.
  destruct (generateTOMLConfig_block toml id0 p0) as [t|] eqn:E;
    [cbn [bind] in H | discriminate].
  destruct Hin as [Hin|Hin].
  - injection Hin as -> ->.
    apply (extends_includes t); [now apply generateTOMLConfig_loop_extends in H|].
    apply generateTOMLConfig_block_extends in E.
    apply (extends_includes _ _ _ E), includes_app_r, includes_self.
  - exact (IH _ _ H _ _ Hin).
Qed.

(** X5.  Whenever [generateTOMLConfig] returns, the document starts with
    the table header [[model_providers]] and an empty line, and for every
    provider that [getAllProviders] returns it contains the header line
    [[model_providers.<id>]] of that provider's block. *)
Theorem rendering_has_every_block (lmiProviders : value)
        (providers : list (string * value)) (toml : string) :
  getAllProviders lmiProviders = Some providers ->
  generateTOMLConfig lmiProviders = Some toml ->
  String.prefix ("[model_providers]" ++ LF ++ LF) toml = true /\
  forall id provider,
    In (id, provider) providers ->
    includes toml ("[model_providers." ++ id ++ "]" ++ LF) = true.
Proof.
  intros Hp. unfold generateTOMLConfig. rewrite Hp. cbn [bind]. intros H. split.
  - apply extends_prefix. now apply generateTOMLConfig_loop_extends in H.
  - now apply (generateTOMLConfig_loop_headers providers _ _ H).
Qed.

Lemma rendering_has_every_block_witness :
  exists providers toml,
    getAllProviders (catalog example_entries) = Some providers /\
    generateTOMLConfig (catalog example_entries) = Some toml /\
    String.prefix ("[model_providers]" ++ LF ++ LF) toml = true /\
    forall id provider,
      In (id, provider) providers ->
      includes toml ("[model_providers." ++ id ++ "]" ++ LF) = true.
Proof.
  destruct (getAllProviders (catalog example_entries)) as [providers|] eqn:Hp;
    [|vm_compute in Hp; discriminate].
  destruct (generateTOMLConfig (catalog example_entries)) as [toml|] eqn:Ht;
    [|vm_compute in Ht; discriminate].
  exists providers, toml. split; [reflexivity|]. split; [reflexivity|].
  exact (rendering_has_every_block (catalog example_entries) providers toml Hp Ht).
Defined.

Lemma getEnvKeyInstructions_hint (k : string) (entry : value) (name : string) :
  inherited k = false ->
  get entry "name" = Some (VStr name) ->
  getEnvKeyInstructions k entry = Some (VStr (hint_of k name)).
Proof.
  intros Hi Hn. unfold getEnvKeyInstructions, hint_of.
  destruct (get instructions k) as [hint|] eqn:Hh.
  2:{ unfold instructions in Hh.
      match type of Hh with
      | get (VObj ?table) _ = _ => destruct (get_object table k) as [x Hx]
      end. congruence. }
  cbn [bind].
  destruct (instructions_own k hint Hh Hi) as [->|(s & -> & _ & Ht)].
  - cbn [truthy]. rewrite Hn. reflexivity.
  - now rewrite Ht.
Qed.

Lemma entry_of_name (m : metadata) :
  get (entry_of m) "name" = Some (VStr (display_name m)).
Proof. reflexivity. Qed.

Lemma convertToRustFormat_typed (k : string) (m : metadata) :
  inherited k = false ->
  convertToRustFormat k (entry_of m) = Some (config_of k m).
Proof.
  intros Hi. unfold convertToRustFormat.
  rewrite (getEnvKeyInstructions_hint k (entry_of m) (display_name m) Hi (entry_of_name m)).
  destruct m as [name [b|] [e|] w [[]|]]; reflexivity.
Qed.

Lemma typed_entries_well_formed (entries : list (string * metadata)) :
  NoDup (map fst entries) -> well_formed (typed_entries entries).
Proof.
  intros ND. unfold well_formed, typed_entries. split.
  - now rewrite map_map.
  - apply Forall_map, Forall_forall. now intros km _.
Qed.

Lemma derived_typed (entries : list (string * metadata)) :
  Forall (fun km => inherited (fst km) = false) entries ->
  forall configs,
    Forall2 derived (typed_entries entries) configs ->
    configs = typed_configs entries.
Proof.
  induction 1 as [|[k m] rest Hk _ IH]; intros configs F;
    inversion F as [|? [id c] ? configs' [Hid Hc] F']; subst; [reflexivity|].
  cbn [fst snd] in *. rewrite (convertToRustFormat_typed k m Hk) in Hc.
  injection Hc as <-. subst id. cbn [typed_configs map fst snd].
  f_equal. now apply IH.
Qed.

(** X6.  Derivation on typed metadata.  For a catalog whose keys are
    unique and none of which is the name of an inherited property, and
    whose entries hold a display name, an optional base URL, an optional
    credential variable, a wire protocol and an optional authentication
    flag, [getAllProviders] files under [lmi_<key>] the configuration with
    exactly these values: an absent optional field is [undefined], the five
    tuning fields are [null], the authentication flag defaults to [false],
    and the hint is the cataloged one or the generic sentence built from the
    display name. *)
Theorem getAllProviders_typed (entries : list (string * metadata)) :
  NoDup (map fst entries) ->
  Forall (fun km => inherited (fst km) = false) entries ->
  getAllProviders (catalog (typed_entries entries)) = Some (typed_configs entries).
Proof.
  intros ND Hi.
  destruct (getAllProviders_spec _ (typed_entries_well_formed entries ND))
    as (configs & E & F).
  now rewrite E, (derived_typed entries Hi configs F).
Qed.

Lemma typed_example_keys :
  NoDup (map fst typed_example) /\
  Forall (fun km => inherited (fst km) = false) typed_example.
Proof.
  split.
  - repeat constructor; cbn; intuition discriminate.
  - repeat constructor.
Qed.

Lemma getAllProviders_typed_witness :
  getAllProviders (catalog (typed_entries typed_example))
  = Some (typed_configs typed_example).
Proof.
  apply (getAllProviders_typed typed_example); apply typed_example_keys.
Defined.

Lemma hint_of_set (k name : string) :
  inherited k = false -> String.eqb (hint_of k name) EmptyString = false.
Proof.
  intros Hi. unfold hint_of.
  destruct (get instructions k) as [hint|] eqn:Hh; [|reflexivity].
  destruct (instructions_own k hint Hh Hi) as [->|(s & -> & Hne & _)];
    [reflexivity|].
  now apply String.eqb_neq.
Qed.

Lemma generateTOMLConfig_block_typed (toml k : string) (m : metadata) :
  inherited k = false ->
  generateTOMLConfig_block toml ("lmi_" ++ k) (config_of k m)
  = Some (toml ++ block_of k m)%string.
Proof.
  intros Hi. pose proof (hint_of_set k (display_name m) Hi) as Hh.
  unfold generateTOMLConfig_block, config_of, block_of, quoted, quoted_if_set.
  destruct m as [name [b|] [e|] w a];
    cbn [text_or_undefined display_name base_url_of env_key_of wire_api_of] in *;
    cbn [get assoc String.eqb Ascii.eqb Bool.eqb bind];
    unfold optional_line, quoted_line;
    cbn [ToString bind truthy]; rewrite Hh; cbn [negb bind];
    try destruct (String.eqb b EmptyString);
    try destruct (String.eqb e EmptyString);
    cbn [negb bind]; destruct (auth_of _);
    f_equal; unfold quoted;
    repeat first [rewrite append_assoc | progress cbn [append]]; reflexivity.
Qed.

Lemma generateTOMLConfig_loop_typed (entries : list (string * metadata)) :
  Forall (fun km => inherited (fst km) = false) entries ->
  forall toml,
    generateTOMLConfig_loop (typed_configs entries) toml
    = Some (toml ++ blocks_of entries)%string.
Proof.
  induction 1 as [|[k m] rest Hk _ IH]; intros toml;
    cbn [typed_configs map generateTOMLConfig_loop blocks_of fst snd].
  - now rewrite append_nil_r.
  - rewrite (generateTOMLConfig_block_typed toml k m Hk). cbn [bind].
    fold (typed_configs rest). now rewrite IH, append_assoc.
Qed.

(** X7.  The configuration document of typed metadata.  Over the same
    catalogs, [generateTOMLConfig] returns the header
    [[model_providers]], an empty line, and then, in catalog order, one
    block per provider: its header line, [name], [base_url] and [env_key]
    only when set to a non-empty text, [env_key_instructions], [wire_api]
    and [requires_openai_auth], then an empty line.  Every text is put
    between the quotes as it is. *)
Theorem generateTOMLConfig_typed (entries : list (string * metadata)) :
  NoDup (map fst entries) ->
  Forall (fun km => inherited (fst km) = false) entries ->
  generateTOMLConfig (catalog (typed_entries entries))
  = Some ("[model_providers]" ++ LF ++ LF ++ blocks_of entries)%string.
Proof.
  intros ND Hi. unfold generateTOMLConfig.
  destruct (getAllProviders_spec _ (typed_entries_well_formed entries ND))
    as (configs & E & F).
  rewrite E, (derived_typed entries Hi configs F). cbn [bind].
  rewrite (generateTOMLConfig_loop_typed entries Hi).
  now rewrite !append_assoc.
Qed.

Lemma generateTOMLConfig_typed_witness :
  generateTOMLConfig (catalog (typed_entries typed_example))
  = Some ("[model_providers]" ++ LF ++ LF ++ blocks_of typed_example)%string.
Proof.
  apply (generateTOMLConfig_typed typed_example); apply typed_example_keys.
Defined.

Lemma length_append (a b : string) :
  String.length (a ++ b) = String.length a + String.length b.
Proof. induction a; cbn; [reflexivity | now f_equal]. Qed.

Lemma append_changes (a b : string) : b <> EmptyString -> (a ++ b)%string <> a.
Proof.
  intros Hb E. apply (f_equal String.length) in E. rewrite length_append in E.
  destruct b; [congruence | cbn in E; lia].
Qed.

(** X8.  [addToConfig] only ever appends.  A missing or unreadable
    configuration file stays as it is; a readable one keeps its text as a
    prefix of the text afterwards, and its permissions.  The file changes
    exactly when the outcome is [Added]. *)
Theorem addToConfig_only_appends (lmiProviders : value) (config : LMICLI.file) :
  let outcome := fst (LMICLI.addToConfig lmiProviders config) in
  let after := snd (LMICLI.addToConfig lmiProviders config) in
  (outcome = LMICLI.Added <-> after <> config) /\
  match config with
  | LMICLI.File existing writable =>
      exists updated,
        after = LMICLI.File updated writable /\
        String.prefix existing updated = true
  | _ => after = config
  end.
Proof.
  destruct config as [| |existing writable]; cbn [LMICLI.addToConfig fst snd].
  - split; [split; [discriminate | congruence] | reflexivity].
  - split; [split; [discriminate | congruence] | reflexivity].
  - assert (Same : exists updated,
               LMICLI.File existing writable = LMICLI.File updated writable /\
               String.prefix existing updated = true).
    { exists existing. split; [reflexivity|].
      rewrite <- (append_nil_r existing) at 2. apply prefix_app. }
    destruct (generateTOMLConfig lmiProviders) as [toml|]; cbn [fst snd];
      [|split; [split; [discriminate | congruence] | exact Same]].
    destruct (includes existing LMICLI.marker); cbn [fst snd];
      [split; [split; [discriminate | congruence] | exact Same]|].
    destruct writable; cbn [fst snd];
      [|split; [split; [discriminate | congruence] | exact Same]].
    split.
    + split; [|reflexivity]. intros _ [= E]. revert E. apply append_changes.
      discriminate.
    + eexists. split; [reflexivity | apply prefix_app].
Qed.

(** X9.  Once [addToConfig] has added a registry of at least one
    provider, the next [addToConfig] on the resulting file reports that the
    providers are already configured and writes nothing. *)
Theorem addToConfig_then_already_configured
        (lmiProviders : value) (providers : list (string * value))
        (config : LMICLI.file) :
  getAllProviders lmiProviders = Some providers ->
  providers <> [] ->
  fst (LMICLI.addToConfig lmiProviders config) = LMICLI.Added ->
  let after := snd (LMICLI.addToConfig lmiProviders config) in
  LMICLI.addToConfig lmiProviders after = (LMICLI.AlreadyConfigured, after).
Proof.
  intros Hp Hne. destruct config as [| |existing writable];
    cbn [LMICLI.addToConfig fst snd]; try discriminate.
  destruct (generateTOMLConfig lmiProviders) as [toml|] eqn:Ht;
    cbn [fst snd]; [|discriminate].
  pose proof (generateTOMLConfig_marked _ _ _ Hp Hne Ht) as Hmark.
  destruct (includes existing LMICLI.marker); cbn [fst snd]; [discriminate|].
  destruct writable; cbn [fst snd]; [|discriminate].
  intros _. unfold LMICLI.addToConfig. rewrite ?Ht.
  rewrite includes_app_r; [reflexivity|]. now apply includes_app_r.
Qed.

Lemma addToConfig_then_already_configured_witness :
  let config := LMICLI.File "model = x" true in
  let after := snd (LMICLI.addToConfig (catalog example_entries) config) in
  LMICLI.addToConfig (catalog example_entries) after
  = (LMICLI.AlreadyConfigured, after).
Proof.
  destruct (getAllProviders (catalog example_entries)) as [providers|] eqn:Hp;
    [|vm_compute in Hp; discriminate].
  apply (addToConfig_then_already_configured (catalog example_entries) providers
           (LMICLI.File "model = x" true) Hp).
  - vm_compute in Hp. injection Hp as <-. discriminate.
  - reflexivity.
Defined.

(** ** More of the bridge *)

Section MoreEventLoop.

Context (rt : Runtime).

Lemma response_line_opening (text : string) :
  response_line text -> exists b, String.prefix (opening b) text = true.
Proof.
  intros (response & Sh & ->). destruct Sh as [data|msg|error].
  - exists true. unfold sendResponse, success. cbn [JSON_stringify flat_map snd fst].
    destruct (JSON_stringify data); vm_compute; reflexivity.
  - exists false. unfold sendResponse, failure. cbn [JSON_stringify flat_map snd fst].
    destruct (JSON_stringify msg); vm_compute; reflexivity.
  - exists false. vm_compute. reflexivity.
Qed.

(** X10.  In every run of the server every write carries a response
    object of one of the three shapes: [{ success: true, data }],
    [{ success: false, error }] or [{ success: false, error, stack }];
    accordingly every line on stdout starts with ["success":true] or
    ["success":false] right after the opening brace. *)
Theorem every_write_is_a_response (turns : list turn) :
  Forall (fun w => response_line (snd w) /\
                   exists b, String.prefix (opening b) (snd w) = true)
         (stdout (run rt init turns)).
Proof.
  destruct (run_sound rt turns init (init_sound rt)) as [_ O].
  apply (Forall_impl _ (P := fun w => response_line (snd w))); [|exact O].
  intros w R. split; [exact R | now apply response_line_opening].
Qed.

(** X11.  In every state the server reaches, the settlement of a pending
    call, whatever its outcome, makes the server write exactly one line,
    tagged with the request the call was issued for and carrying a
    response; the handler of that request is removed, no handler is
    suspended again, and the server keeps running. *)
Theorem settlement_answers_its_request (turns : list turn) (i : nat) (o : outcome)
        (t : task) :
  let s := run rt init turns in
  exited s = None ->
  nth_error (waiting s) i = Some t ->
  exists text,
    response_line text /\
    step rt s (Settle i o)
    = {| waiting := remove_nth i (waiting s);
         stdout := stdout s ++ [(tid t, text)];
         received := received s; exited := None |}.
Proof.
  intros s X N. apply settle_sound; trivial. apply run_sound, init_sound.
Qed.

Lemma step_received (s : server) (t : turn) :
  received (step rt s t)
  <= received s + match t with Chunk lines => List.length lines | _ => 0 end.
Proof.
  unfold step. destruct (exited s) eqn:X; [lia|].
  destruct t as [lines|i o|].
  - destruct (lines_facts rt lines s []) as (R & _).
    destruct (fold_left (on_line rt) lines (s, [])) as [s1 jobs1].
    cbn [fst snd] in *.
    destruct (drain_facts jobs1 s1) as (R' & _). lia.
  - destruct (nth_error (waiting s) i) as [t|]; [|lia].
    match goal with |- context [continue ?id ?p ?s'] =>
      destruct (continue_facts id p s') as (R & _)
    end. cbn [received] in *. lia.
  - cbn [received]. lia.
Qed.

Lemma run_received (turns : list turn) :
  forall s, received (run rt s turns) <= received s + List.length (lines_of turns).
Proof.
  induction turns as [|t rest IH]; intros s; [cbn; lia|].
  change (run rt s (t :: rest)) with (run rt (step rt s t) rest).
  specialize (IH (step rt s t)). pose proof (step_received s t) as H.
  unfold lines_of in *. cbn [flat_map]. rewrite length_app.
  destruct t; cbn [List.length] in *; lia.
Qed.

(** X12.  At every point of every run, signalled or not, the number of
    lines on stdout plus the number of suspended handlers is the number of
    request lines the server has taken in: no request is answered twice or
    dropped.  That number never exceeds the lines sent, and equals it while
    the server is running. *)
Theorem requests_are_conserved (turns : list turn) :
  let s := run rt init turns in
  List.length (stdout s) + List.length (waiting s) = received s /\
  received s <= List.length (lines_of turns) /\
  (exited s = None -> received s = List.length (lines_of turns)).
Proof.
  intros s. destruct (run_facts rt turns init) as (_ & A & R). fold s in A, R.
  split; [|split].
  - assert (P : accounted s []) by (apply A; unfold accounted; cbn; constructor).
    unfold accounted, ids in P. rewrite app_nil_r in P.
    apply Permutation_length in P.
    now rewrite length_app, !length_map, length_seq in P.
  - exact (run_received turns init).
  - exact R.
Qed.

(** X13.  A termination signal ends a running server with exit code 0,
    without writing anything; whatever arrives afterwards (lines,
    settlements, further signals) changes nothing: the requests still
    pending at the signal are never answered. *)
Theorem signal_is_final (s : server) (turns : list turn) :
  exited s = None ->
  let s' := step rt s Signal in
  exited s' = Some 0%Z /\
  stdout s' = stdout s /\
  waiting s' = waiting s /\
  run rt s' turns = s'.
Proof.
  intros X s'. assert (E : exited s' = Some 0%Z).
  { unfold s', step. now rewrite X. }
  split; [exact E|]. unfold s', step. rewrite X. cbn [stdout waiting].
  split; [reflexivity|]. split; [reflexivity|].
  apply (run_exited rt turns _ 0%Z). reflexivity.
Qed.

Lemma handleRequest_unknown (request : value) (shown : string) :
  nullish request = false ->
  served (field request "type") = false ->
  ToString (field request "type") = Some shown ->
  handleRequest rt request
  = Raise {| message := "Unknown request type: " ++ shown;
             stack := Error_stack rt ("Unknown request type: " ++ shown) |}.
Proof.
  intros N S T. unfold handleRequest.
  destruct request; try discriminate N; cbv zeta; rewrite T;
    (destruct (field _ "type") as [ | | | |t| | | ]; try reflexivity;
     cbn [served] in S; apply orb_false_iff in S as [S S3];
     apply orb_false_iff in S as [S1 S2]; now rewrite S1, S2, S3).
Qed.

Lemma single_line_turn (s : server) (line : string) (error : error_info) :
  exited s = None ->
  listener rt line = Raise error ->
  stdout (step rt s (Chunk [line])) = stdout s ++ [(received s, sendError error)].
Proof.
  intros X L. unfold step. rewrite X. cbn [fold_left]. unfold on_line.
  unfold listener in L. destruct (JSON_parse rt line) as [request|error'].
  - now rewrite L.
  - now injection L as ->.
Qed.

(** X15.  What the failure responses say.  A line that [JSON.parse]
    rejects is answered with the message and stack of the very error the
    parser threw.  A request (any parsed value but [null]) whose [type] is
    not served is answered with the message [Unknown request type: ]
    followed by the type as a template literal shows it: [undefined] when
    the field is missing, a number (an integer, in this embedding) as
    Number::toString prints it ([1e+21] for the type [1e21]).  The line
    [null] is answered with the engine's
    [TypeError] for destructuring [null]. *)
Theorem failure_texts (s : server) (line : string) :
  exited s = None ->
  (forall error,
     JSON_parse rt line = inr error ->
     stdout (step rt s (Chunk [line]))
     = stdout s ++ [(received s, sendError error)]) /\
  (forall request shown,
     JSON_parse rt line = inl request ->
     nullish request = false ->
     served (field request "type") = false ->
     ToString (field request "type") = Some shown ->
     stdout (step rt s (Chunk [line]))
     = stdout s
       ++ [(received s,
            sendError {| message := "Unknown request type: " ++ shown;
                         stack := Error_stack rt ("Unknown request type: " ++ shown) |})]) /\
  (JSON_parse rt line = inl VNull ->
   stdout (step rt s (Chunk [line]))
   = stdout s ++ [(received s, sendError (TypeError rt (Destructure VNull)))]).
Proof.
  intros X. split; [|split].
  - intros error P. apply single_line_turn; [exact X|].
    unfold listener. now rewrite P.
  - intros request shown P N S T. apply single_line_turn; [exact X|].
    unfold listener. rewrite P. now apply handleRequest_unknown.
  - intros P. apply single_line_turn; [exact X|].
    unfold listener. now rewrite P.
Qed.

End MoreEventLoop.

Lemma settlement_answers_its_request_witness :
  let s := run example_runtime init [Chunk [line_of chat_request]] in
  exists t text,
    nth_error (waiting s) 0 = Some t /\
    response_line text /\
    step example_runtime s (Settle 0 (Resolved providers_listed))
    = {| waiting := remove_nth 0 (waiting s);
         stdout := stdout s ++ [(tid t, text)];
         received := received s; exited := None |}.
Proof.
  intros s. destruct (nth_error (waiting s) 0) as [t|] eqn:N; [|discriminate N].
  destruct (settlement_answers_its_request example_runtime
              [Chunk [line_of chat_request]] 0 (Resolved providers_listed) t
              eq_refl N) as (text & R & E).
  exists t, text. repeat split; trivial.
Defined.

Lemma requests_are_conserved_witness :
  let s := run example_runtime init overlapping_schedule in
  exited s = None /\
  List.length (stdout s) + List.length (waiting s) = received s /\
  received s <= List.length (lines_of overlapping_schedule) /\
  received s = List.length (lines_of overlapping_schedule).
Proof.
  destruct (requests_are_conserved example_runtime overlapping_schedule)
    as (C & B & R).
  split; [reflexivity|]. split; [exact C|]. split; [exact B|].
  apply R. reflexivity.
Defined.

Lemma signal_is_final_witness :
  let s := run example_runtime init [Chunk [line_of chat_request]] in
  let s' := step example_runtime s Signal in
  exited s' = Some 0%Z /\
  stdout s' = stdout s /\
  waiting s' = waiting s /\
  run example_runtime s'
      [Settle 0 (Resolved providers_listed); Chunk [line_of list_request]; Signal]
  = s'.
Proof.
  apply (signal_is_final example_runtime
           (run example_runtime init [Chunk [line_of chat_request]])).
  reflexivity.
Defined.

Lemma failure_texts_witness :
  let numbers := sample_runtime [numbered_request] in
  stdout (step example_runtime init (Chunk ["{oops"]))
  = [(0, sendError {| message := "Unexpected token";
                      stack := "SyntaxError: Unexpected token" ++ LF
                               ++ "    at JSON.parse (<anonymous>)" |})] /\
  stdout (step example_runtime init (Chunk [line_of odd_request]))
  = [(0, sendError
           {| message := "Unknown request type: shutdown";
              stack := Error_stack example_runtime "Unknown request type: shutdown" |})] /\
  line_of numbered_request = ("{" ++ DQ ++ "type" ++ DQ ++ ":1e+21}")%string /\
  stdout (step numbers init (Chunk [line_of numbered_request]))
  = [(0, sendError
           {| message := "Unknown request type: 1e+21";
              stack := Error_stack numbers "Unknown request type: 1e+21" |})].
Proof.
  intros numbers.
  destruct (failure_texts example_runtime init "{oops" eq_refl) as (Rejected & _ & _).
  destruct (failure_texts example_runtime init (line_of odd_request) eq_refl)
    as (_ & Unknown & _).
  destruct (failure_texts numbers init (line_of numbered_request) eq_refl)
    as (_ & Number & _).
  split; [|split; [|split]].
  - apply Rejected. reflexivity.
  - apply (Unknown odd_request "shutdown"); reflexivity.
  - vm_compute. reflexivity.
  - apply (Number numbered_request "1e+21"); vm_compute; reflexivity.
Defined.

(** ** The command line *)

Import LMICLICommands.

Lemma untouched_refl (w : world) : untouched w w.
Proof. repeat split. exists []. now rewrite app_nil_r. Qed.

Lemma untouched_trans (a b c : world) : untouched a b -> untouched b c -> untouched a c.
Proof.
  intros (H1 & H2 & H3 & H0 & H4 & n & H5) (K1 & K2 & K3 & K0 & K4 & n' & K5).
  repeat split; try congruence. exists (n ++ n'). now rewrite K5, H5, app_assoc.
Qed.

Lemma quiet_ret {A : Type} (a : A) : quiet (ret a).
Proof. intros w. apply untouched_refl. Qed.

Lemma quiet_throws {A : Type} (o : option A) : quiet (throws o).
Proof. intros w. apply untouched_refl. Qed.

Lemma quiet_exit {A : Type} (code : Z) : quiet (@exit A code).
Proof. intros w. apply untouched_refl. Qed.

Lemma quiet_say (text : string) : quiet (say text).
Proof. intros w. repeat split. now exists [text]. Qed.

Lemma quiet_then {A B : Type} (m : cmd A) (f : A -> cmd B) :
  quiet m -> (forall a, quiet (f a)) -> quiet (then_ m f).
Proof.
  intros Hm Hf w. unfold then_. specialize (Hm w).
  destruct (m w) as [w' [a|e]]; cbn [fst] in *; [|exact Hm].
  exact (untouched_trans _ _ _ Hm (Hf a w')).
Qed.

Lemma quiet_shown (label : string) (v : option value) : quiet (shown label v).
Proof.
  unfold shown. apply quiet_then; [apply quiet_throws|]. intros a.
  apply quiet_then; [apply quiet_throws|]. intros text. apply quiet_say.
Qed.

Lemma quiet_describe (id : string) (provider : value) : quiet (describe id provider).
Proof.
  unfold describe.
  repeat (apply quiet_then; [first [apply quiet_say | apply quiet_shown]|]; intros _).
  apply quiet_say.
Qed.

Lemma quiet_listProviders_loop (providers : list (string * value)) :
  quiet (listProviders_loop providers).
Proof.
  induction providers as [|[id provider] rest IH]; cbn [listProviders_loop].
  - apply quiet_ret.
  - apply quiet_then; [apply quiet_describe | intros _; exact IH].
Qed.

Lemma quiet_listProviders (lmiProviders : value) : quiet (listProviders lmiProviders).
Proof.
  unfold listProviders. apply quiet_then; [apply quiet_say|]. intros _.
  apply quiet_then; [apply quiet_throws|]. intros providers.
  apply quiet_listProviders_loop.
Qed.

Lemma quiet_help_and_exit : quiet (showHelp ;;; @exit unit 1).
Proof. apply quiet_then; [apply quiet_say | intros _; apply quiet_exit]. Qed.

Lemma untouched_changes_only (allowed : file_id -> Prop) (w w' : world) :
  untouched w w' -> changes_only allowed w w'.
Proof.
  intros (H1 & H2 & H3 & H0 & H4 & H5). repeat split; trivial; rewrite H4; auto.
Qed.

Lemma put_changes_only (allowed : file_id -> Prop) (path text : string) (w : world) :
  allowed (resolve w path) -> changes_only allowed w (put path text w).
Proof.
  intros Ha. repeat split; trivial; cbn [put files log].
  - exists []. now rewrite app_nil_r.
  - now destruct (N.eqb f (resolve w path)).
  - now destruct (N.eqb f (resolve w path)).
  - destruct (N.eqb_spec f (resolve w path)) as [->|_]; [now right | now left].
Qed.

Lemma changes_only_then_untouched (allowed : file_id -> Prop) (a b c : world) :
  changes_only allowed a b -> untouched b c -> changes_only allowed a c.
Proof.
  intros (H1 & H2 & H3 & H0 & [n H4] & H5) (K1 & K2 & K3 & K0 & K4 & n' & K5).
  repeat split; try congruence.
  - exists (n ++ n'). now rewrite K5, H4, app_assoc.
  - rewrite K4. apply H5.
  - rewrite K4. apply H5.
  - rewrite K4. apply H5.
Qed.

Lemma main_world (lmiProviders : value) (args : list string) (w : world) :
  fst (main lmiProviders args w) = fst (run lmiProviders args w).
Proof. unfold main. now destruct (run lmiProviders args w) as [w' [a|[|code]]]. Qed.

Lemma generateConfig_changes (lmiProviders : value) (outputPath : option string)
      (w : world) :
  changes_only (fun f => exists path, outputPath = Some path /\ f = resolve w path) w
               (fst (generateConfig lmiProviders outputPath w)).
Proof.
  unfold generateConfig, then_, throws.
  destruct (generateTOMLConfig lmiProviders) as [config|]; cbn [fst];
    [|apply untouched_changes_only, untouched_refl].
  destruct outputPath as [path|];
    [|apply untouched_changes_only, (quiet_say config w)].
  destruct (String.eqb path EmptyString);
    [apply untouched_changes_only, (quiet_say config w)|].
  unfold writeFileSync.
  destruct (writable (file_at w path)); cbn [fst];
    [|apply untouched_changes_only, untouched_refl].
  apply (changes_only_then_untouched _ _ (put path config w));
    [apply put_changes_only; eauto | apply quiet_say].
Qed.

Lemma addToConfig_changes (lmiProviders : value) (w : world) :
  changes_only
    (fun f => exists home, homeDir w = Some home /\ f = resolve w (config_toml w home))
    w (fst (addToConfig lmiProviders w)).
Proof.
  unfold addToConfig. destruct (homeDir w) as [home|] eqn:Hh; cbn [fst];
    [|apply untouched_changes_only, untouched_refl].
  destruct (LMICLI.addToConfig lmiProviders (view (file_at w (config_toml w home))))
    as [[code| |] after]; cbn [fst].
  - apply untouched_changes_only, untouched_refl.
  - apply untouched_changes_only, quiet_say.
  - apply (changes_only_then_untouched _ _ (store (config_toml w home) after w)).
    + destruct after; cbn [store];
        try apply untouched_changes_only, untouched_refl.
      apply put_changes_only. eauto.
    + repeat (apply quiet_then; [apply quiet_say|]; intros _). apply quiet_say.
Qed.

(** X16.  What the program can change.  Whatever the registry, the
    arguments and the world, [main] leaves the environment as it is, every
    path names the file it named, the program only adds to what it has
    printed, and changes no permission; a file is different afterwards only
    if the command is [generate-config] and the file is the one its
    argument names, or the command is [add-to-config] and the file is the
    one that the configuration path under the home directory names.  Files
    are told apart by their identity, not by the spelling of a path.  In
    particular [list], [help] and every unknown command change no file. *)
Theorem main_writes_only_its_target (lmiProviders : value) (args : list string)
        (w : world) :
  changes_only
    (fun f =>
       (nth_error args 0 = Some "generate-config" /\
        exists path, nth_error args 1 = Some path /\ f = resolve w path) \/
       (nth_error args 0 = Some "add-to-config" /\
        exists home, homeDir w = Some home /\ f = resolve w (config_toml w home)))
    w (fst (main lmiProviders args w)).
Proof.
  rewrite main_world. unfold run.
  destruct args as [|command rest];
    [apply untouched_changes_only, quiet_help_and_exit|].
  destruct (String.eqb_spec command "list") as [->|_];
    [apply untouched_changes_only, quiet_listProviders|].
  destruct (String.eqb_spec command "generate-config") as [->|_].
  { destruct (generateConfig_changes lmiProviders
                (nth_error ("generate-config" :: rest) 1) w)
      as (H1 & H2 & H3 & H0 & H4 & H5).
    repeat split; trivial; try apply H5.
    destruct (H5 f) as (_ & _ & [E|E]); [now left | right; left; now split]. }
  destruct (String.eqb_spec command "add-to-config") as [->|_].
  { destruct (addToConfig_changes lmiProviders w) as (H1 & H2 & H3 & H0 & H4 & H5).
    repeat split; trivial; try apply H5.
    destruct (H5 f) as (_ & _ & [E|E]); [now left | right; right; now split]. }
  destruct (_ || _);
    [apply untouched_changes_only, quiet_say
    | apply untouched_changes_only, quiet_help_and_exit].
Qed.

(** Two spellings of one file: [generate-config] through one of them is
    seen through the other. *)
Example generate_config_through_alias :
  let alias := "/home/u/.icodex/../.icodex/config.toml" in
  let w' := fst (main (catalog example_entries) ["generate-config"; alias]
                      example_world) in
  content (file_at example_world "/home/u/.icodex/config.toml") = Some "model = x" /\
  content (file_at w' "/home/u/.icodex/config.toml")
    = generateTOMLConfig (catalog example_entries) /\
  content (file_at w' "/home/u/other.toml") = None.
Proof. vm_compute. repeat split. Qed.

(** X17.  The empty command line and every command other than [list],
    [generate-config], [add-to-config], [help], [--help] and [-h] make the
    program print the help text and end with exit code 1; nothing else is
    printed and no file is written. *)
Theorem unknown_command_fails (lmiProviders : value) (args : list string) (w : world) :
  match args with
  | [] => True
  | command :: _ => known_command command = false
  end ->
  main lmiProviders args w = (said [help_text] w, 1%Z).
Proof.
  destruct args as [|command rest]; [reflexivity|].
  unfold known_command. cbn [existsb]. intros H.
  repeat (apply orb_false_iff in H as [?H H]).
  unfold main, run. now rewrite H0, H1, H2, H3, H4, H5.
Qed.

Lemma unknown_command_fails_witness :
  main (catalog example_entries) [] example_world
    = (said [help_text] example_world, 1%Z) /\
  main (catalog example_entries) ["remove"; "lmi_openai"] example_world
    = (said [help_text] example_world, 1%Z).
Proof.
  split.
  - apply (unknown_command_fails (catalog example_entries) [] example_world).
    exact I.
  - apply (unknown_command_fails (catalog example_entries)
             ["remove"; "lmi_openai"] example_world).
    reflexivity.
Defined.

(** X18.  [generate-config].  When the rendering throws, the program ends
    with exit code 1 and has done nothing.  Otherwise, without a file
    argument (or with an empty one) it prints the rendering and writes
    nothing; with a file argument it replaces whatever the file held by
    the rendering, without looking at it, and prints where it wrote, or,
    if the path cannot be written, ends with exit code 1 having done
    nothing. *)
Theorem generate_config_outcomes (lmiProviders : value) (rest : list string)
        (w : world) :
  (generateTOMLConfig lmiProviders = None ->
   main lmiProviders ("generate-config" :: rest) w = (w, 1%Z)) /\
  (forall toml,
     generateTOMLConfig lmiProviders = Some toml ->
     main lmiProviders ("generate-config" :: rest) w
     = match rest with
       | [] => (said [toml] w, 0%Z)
       | path :: _ =>
           if String.eqb path EmptyString then (said [toml] w, 0%Z)
           else if writable (file_at w path)
                then (said [("Configuration written to: " ++ path)%string]
                           (put path toml w), 0%Z)
                else (w, 1%Z)
       end).
Proof.
  unfold main, run. cbn [String.eqb Ascii.eqb Bool.eqb nth_error].
  unfold generateConfig, then_, throws. split.
  - now intros ->.
  - intros toml ->. destruct rest as [|path rest']; [reflexivity|].
    cbn [nth_error]. destruct (String.eqb path EmptyString); [reflexivity|].
    unfold writeFileSync. now destruct (writable (file_at w path)).
Qed.

Lemma generate_config_outcomes_witness :
  exists toml,
    generateTOMLConfig (catalog example_entries) = Some toml /\
    main (catalog example_entries) ["generate-config"] example_world
      = (said [toml] example_world, 0%Z) /\
    main (catalog example_entries)
         ["generate-config"; "/home/u/.icodex/config.toml"] example_world
      = (said ["Configuration written to: /home/u/.icodex/config.toml"]
              (put "/home/u/.icodex/config.toml" toml example_world), 0%Z).
Proof.
  destruct (generateTOMLConfig (catalog example_entries)) as [toml|] eqn:Ht;
    [|vm_compute in Ht; discriminate].
  exists toml. split; [reflexivity|].
  split.
  - exact (proj2 (generate_config_outcomes (catalog example_entries) [] example_world)
                 toml Ht).
  - exact (proj2 (generate_config_outcomes (catalog example_entries)
                    ["/home/u/.icodex/config.toml"] example_world) toml Ht).
Defined.

Lemma said_log (texts : list string) (w : world) : texts <> [] -> said texts w <> w.
Proof.
  intros Hne E. apply (f_equal log) in E. cbn [said log] in E.
  apply (f_equal (@List.length string)) in E. rewrite length_app in E.
  destruct texts; [congruence | cbn in E; lia].
Qed.

(** X19.  [add-to-config] is all or nothing.  It ends with exit code 0
    or 1; with 1 (no home directory in the environment, no configuration
    file, a file that cannot be read or written, a rendering that throws)
    it has printed nothing and written nothing; with 0 it has printed. *)
Theorem add_to_config_all_or_nothing (lmiProviders : value) (rest : list string)
        (w : world) :
  let w' := fst (main lmiProviders ("add-to-config" :: rest) w) in
  let code := snd (main lmiProviders ("add-to-config" :: rest) w) in
  (code = 0%Z \/ code = 1%Z) /\
  (code = 1%Z -> w' = w) /\
  (code = 0%Z -> log w' <> log w).
Proof.
  unfold main, run. cbn [String.eqb Ascii.eqb Bool.eqb]. unfold addToConfig.
  destruct (homeDir w) as [home|]; cbn [fst snd];
    [|repeat split; auto; discriminate].
  destruct (LMICLI.addToConfig lmiProviders (view (file_at w (config_toml w home))))
    as [[code| |] after] eqn:E; cbn [fst snd].
  - assert (code = 1%Z) as ->.
    { revert E. unfold LMICLI.addToConfig.
      destruct (view _) as [| |existing writable]; try now intros [= <-].
      destruct (generateTOMLConfig lmiProviders); [|now intros [= <-]].
      destruct (includes existing LMICLI.marker); [discriminate|].
      destruct writable; [discriminate | now intros [= <-]]. }
    repeat split; auto; discriminate.
  - repeat split; auto; try discriminate. intros _. cbn [say fst log].
    intros H. apply (f_equal (@List.length string)) in H.
    rewrite length_app in H. cbn in H. lia.
  - repeat split; auto; try discriminate. intros _.
    unfold then_, say. cbn [fst log].
    assert (L : log (store (config_toml w home) after w) = log w).
    { now destruct after. }
    rewrite L. intros H. apply (f_equal (@List.length string)) in H.
    rewrite !length_app in H. cbn in H. lia.
Qed.

Lemma add_to_config_all_or_nothing_witness :
  let unset :=
    {| HOME := Some EmptyString; USERPROFILE := None;
       config_toml := config_toml example_world;
       resolve := resolve example_world;
       files := files example_world; log := [] |} in
  snd (main (catalog example_entries) ["add-to-config"] unset) = 1%Z /\
  fst (main (catalog example_entries) ["add-to-config"] unset) = unset /\
  snd (main (catalog example_entries) ["add-to-config"] example_world) = 0%Z /\
  log (fst (main (catalog example_entries) ["add-to-config"] example_world))
    <> log example_world.
Proof.
  intros unset.
  destruct (add_to_config_all_or_nothing (catalog example_entries) [] unset)
    as (_ & Nothing & _).
  destruct (add_to_config_all_or_nothing (catalog example_entries) [] example_world)
    as (_ & _ & Printed).
  split; [reflexivity|]. split; [apply Nothing; reflexivity|].
  split; [reflexivity|]. apply Printed. reflexivity.
Defined.

(** X20.  [add-to-config] and [generate-config] agree.  With a home
    directory in the environment and a readable, writable configuration
    file that lacks the marker, [add-to-config] ends with exit code 0,
    prints its three messages, and leaves in the file the old text, the
    comment line and then exactly the document that [generate-config]
    prints. *)
Theorem add_to_config_appends_the_rendering
        (lmiProviders : value) (w : world) (home existing toml : string) :
  homeDir w = Some home ->
  view (file_at w (config_toml w home)) = LMICLI.File existing true ->
  includes existing LMICLI.marker = false ->
  generateTOMLConfig lmiProviders = Some toml ->
  main lmiProviders ["generate-config"] w = (said [toml] w, 0%Z) /\
  main lmiProviders ["add-to-config"] w
  = (said [("Added LMI providers to: " ++ config_toml w home)%string;
           "You can now use any of the LMI providers by setting the model_provider in your config or using --model-provider flag.";
           "Example: icodex --model-provider lmi_openai"]
          (put (config_toml w home) (existing ++ LMICLI.banner ++ toml) w),
     0%Z).
Proof.
  intros Hh Hv Hm Ht. split.
  - unfold main, run. cbn [String.eqb Ascii.eqb Bool.eqb nth_error].
    unfold generateConfig, then_, throws. now rewrite Ht.
  - unfold main, run. cbn [String.eqb Ascii.eqb Bool.eqb]. unfold addToConfig.
    rewrite Hh, Hv. unfold LMICLI.addToConfig. rewrite Ht, Hm.
    unfold then_, say, said, store.
    cbn [fst snd HOME USERPROFILE config_toml resolve files log put].
    now rewrite <- !app_assoc.
Qed.

Lemma add_to_config_appends_the_rendering_witness :
  exists toml,
    generateTOMLConfig (catalog example_entries) = Some toml /\
    main (catalog example_entries) ["generate-config"] example_world
      = (said [toml] example_world, 0%Z) /\
    main (catalog example_entries) ["add-to-config"] example_world
    = (said ["Added LMI providers to: /home/u/.icodex/config.toml";
             "You can now use any of the LMI providers by setting the model_provider in your config or using --model-provider flag.";
             "Example: icodex --model-provider lmi_openai"]
            (put "/home/u/.icodex/config.toml"
                 ("model = x" ++ LMICLI.banner ++ toml) example_world),
       0%Z).
Proof.
  destruct (generateTOMLConfig (catalog example_entries)) as [toml|] eqn:Ht;
    [|vm_compute in Ht; discriminate].
  exists toml. split; [reflexivity|].
  apply (add_to_config_appends_the_rendering (catalog example_entries)
           example_world "/home/u" "model = x" toml); trivial; reflexivity.
Defined.

Lemma logs_say (text : string) : logs 1 (say text).
Proof.
  intros w w' a [= <- _]. cbn [log]. rewrite length_app. reflexivity.
Qed.

Lemma logs_ret {A : Type} (a : A) : logs 0 (ret a).
Proof. intros w w' b [= <- _]. lia. Qed.

Lemma logs_throws {A : Type} (o : option A) : logs 0 (throws o).
Proof. intros w w' a. unfold throws. destruct o; intros [= <-]. lia. Qed.

Lemma logs_then {A B : Type} (n k : nat) (m : cmd A) (f : A -> cmd B) :
  logs n m -> (forall a, logs k (f a)) -> logs (n + k) (then_ m f).
Proof.
  intros Hm Hf w w' b. unfold then_.
  destruct (m w) as [w1 [a|e]] eqn:E; [|discriminate].
  intros H. rewrite (Hf a _ _ _ H), (Hm _ _ _ E). lia.
Qed.

Lemma logs_shown (label : string) (v : option value) : logs 1 (shown label v).
Proof.
  unfold shown. apply (logs_then 0 1); [apply logs_throws|]. intros a.
  apply (logs_then 0 1); [apply logs_throws|]. intros text. apply logs_say.
Qed.

Lemma logs_describe (id : string) (provider : value) : logs 7 (describe id provider).
Proof.
  unfold describe.
  apply (logs_then 1 6); [apply logs_say|]. intros _.
  apply (logs_then 1 5); [apply logs_shown|]. intros _.
  apply (logs_then 1 4); [apply logs_shown|]. intros _.
  apply (logs_then 1 3); [apply logs_shown|]. intros _.
  apply (logs_then 1 2); [apply logs_shown|]. intros _.
  apply (logs_then 1 1); [apply logs_shown|]. intros _.
  apply logs_say.
Qed.

Lemma logs_listProviders_loop (providers : list (string * value)) :
  logs (7 * List.length providers) (listProviders_loop providers).
Proof.
  induction providers as [|[id provider] rest IH]; cbn [listProviders_loop].
  - apply logs_ret.
  - replace (7 * List.length ((id, provider) :: rest))
      with (7 + 7 * List.length rest) by (cbn [List.length]; lia).
    apply logs_then; [apply logs_describe | intros _; exact IH].
Qed.

(** X21.  [list].  When [getAllProviders] throws, the program has printed
    the title and nothing else, and ends with exit code 1.  When the
    command completes, it has printed the title and seven texts for each
    provider of the registry. *)
Theorem list_prints_seven_lines_per_provider
        (lmiProviders : value) (rest : list string) (w : world) :
  (getAllProviders lmiProviders = None ->
   main lmiProviders ("list" :: rest) w
   = (said [("Available Large Models Interface Providers:" ++ LF)%string] w, 1%Z)) /\
  (forall providers w',
     getAllProviders lmiProviders = Some providers ->
     run lmiProviders ("list" :: rest) w = (w', inl tt) ->
     main lmiProviders ("list" :: rest) w = (w', 0%Z) /\
     List.length (log w') = List.length (log w) + 1 + 7 * List.length providers).
Proof.
  split.
  - unfold main, run. cbn [String.eqb Ascii.eqb Bool.eqb].
    unfold listProviders, then_, throws, say. now intros ->.
  - intros providers w' Hp H. split; [unfold main; now rewrite H|].
    revert H. unfold run. cbn [String.eqb Ascii.eqb Bool.eqb].
    unfold listProviders, then_, say, throws. rewrite Hp. intros H.
    rewrite (logs_listProviders_loop providers _ _ _ H).
    cbn [log]. rewrite length_app. cbn [List.length]. lia.
Qed.

Lemma list_prints_seven_lines_per_provider_witness :
  exists providers w',
    getAllProviders (catalog example_entries) = Some providers /\
    run (catalog example_entries) ["list"] example_world = (w', inl tt) /\
    main (catalog example_entries) ["list"] example_world = (w', 0%Z) /\
    List.length (log w')
    = List.length (log example_world) + 1 + 7 * List.length providers.
Proof.
  destruct (getAllProviders (catalog example_entries)) as [providers|] eqn:Hp;
    [|vm_compute in Hp; discriminate].
  destruct (run (catalog example_entries) ["list"] example_world)
    as [w' [[]|e]] eqn:Hr; [|vm_compute in Hr; discriminate].
  exists providers, w'. split; [reflexivity|]. split; [reflexivity|].
  exact (proj2 (list_prints_seven_lines_per_provider (catalog example_entries)
                  [] example_world) providers w' Hp Hr).
Defined.
